(** * email_header_parser.py: header normalisation, artifact extraction, table writer

    A shallow embedding of [src/email_header_parser.py] and the properties
    its specification states about it.

    Conventions of the embedding.
    - A Python [str] is a [string]; a character is a code point below 256,
      so [str.lower], [str.strip], [\d] and [re.IGNORECASE] are the
      restrictions of Python's Unicode operations to that range.
    - A [dict] is a [gmap], a [set] a [gset]; the module-level set
      [email_header_fields] is passed in and out of the functions that
      touch it.
    - The standard library ([email], [re], [csv], [os], [fnmatch]) is
      modelled at the level of the calls the program makes. *)

From Stdlib Require Import Ascii String NArith Sorted.
From stdpp Require Import base option list strings gmap sets sorting pretty.

#[local] Set Warnings "-clear-no-such-hyp".


(** ** Characters and strings *)

Module Chars.

Definition code (a : ascii) : N := N_of_ascii a.

Definition in_range (lo hi : N) (a : ascii) : bool :=
  ((lo <=? code a) && (code a <=? hi))%N.

(** [str.lower] on one code point below 256: [A-Z] and the Latin-1 capitals
    (0xC0-0xDE, the multiplication sign 0xD7 left out) move up by 32. *)
Definition lower (a : ascii) : ascii :=
  if in_range 65 90 a || (in_range 192 222 a && negb (code a =? 215)%N)
  then ascii_of_N (code a + 32)
  else a.

(** [\d] *)
Definition is_digit (a : ascii) : bool := in_range 48 57 a.

(** [str.isspace], the characters [str.strip] removes. *)
Definition is_space (a : ascii) : bool :=
  in_range 9 13 a || in_range 28 32 a || (code a =? 133)%N || (code a =? 160)%N.

Definition newline : ascii := "010"%char.

End Chars.

Module Str.

Fixpoint lower (s : string) : string :=
  match s with
  | "" => ""
  | String a s' => String (Chars.lower a) (lower s')
  end.

Fixpoint drop_while (p : ascii -> bool) (s : string) : string :=
  match s with
  | "" => ""
  | String a s' => if p a then drop_while p s' else s
  end.

Fixpoint take_while (p : ascii -> bool) (s : string) : string :=
  match s with
  | "" => ""
  | String a s' => if p a then String a (take_while p s') else ""
  end.

Fixpoint take (n : nat) (s : string) : string :=
  match n, s with
  | S n', String a s' => String a (take n' s')
  | _, _ => ""
  end.

Fixpoint drop (n : nat) (s : string) : string :=
  match n, s with
  | S n', String a s' => drop n' s'
  | _, _ => s
  end.

Definition is_empty (s : string) : bool :=
  match s with "" => true | _ => false end.

Definition lstrip (s : string) : string := drop_while Chars.is_space s.

Fixpoint rstrip (s : string) : string :=
  match s with
  | "" => ""
  | String a s' =>
      let r := rstrip s' in
      if Chars.is_space a && is_empty r then "" else String a r
  end.

(** [str.strip()] *)
Definition strip (s : string) : string := rstrip (lstrip s).

Fixpoint ends_with (suffix s : string) : bool :=
  if String.eqb s suffix then true
  else match s with
       | "" => false
       | String _ s' => ends_with suffix s'
       end.

(** The part of [s] after its last ["/"]: [os.path.basename]. *)
Fixpoint basename_go (cur s : string) : string :=
  match s with
  | "" => cur
  | String a s' =>
      if Ascii.eqb a "/" then basename_go s' s' else basename_go cur s'
  end.

Definition basename (s : string) : string := basename_go s s.

End Str.

(** ** The regular expressions of [pull_artifacts]

    A backtracking matcher with the semantics of Python's [re]: the
    leftmost starting position wins, alternatives are tried left to
    right, quantifiers are greedy and give characters back one at a time.
    Quantifiers apply to one-character atoms, which is all the three
    patterns of the program use. *)

Module Re.

Inductive atom :=
| ALit (c : ascii)      (* a literal character *)
| ADot                  (* [.] : anything but a newline *)
| AAny                  (* [.] under [(?s)] : anything *)
| ADigit.               (* [\d] *)

Inductive regex :=
| Empty                              (* the empty pattern *)
| Atom (a : atom)
| Seq (r1 r2 : regex)
| Alt (r1 r2 : regex)
| Star (a : atom)                    (* [a*] *)
| Repeat (a : atom) (lo hi : nat)    (* [a{lo,hi}] *)
| Group (n : nat) (r : regex).       (* the [n]-th parenthesis *)

(** Whether character [c] is accepted by atom [a]; [ic] is [re.IGNORECASE]. *)
Definition atom_ok (ic : bool) (a : atom) (c : ascii) : bool :=
  match a with
  | ALit l =>
      if ic then Ascii.eqb (Chars.lower c) (Chars.lower l) else Ascii.eqb c l
  | ADot => negb (Ascii.eqb c Chars.newline)
  | AAny => true
  | ADigit => Chars.is_digit c
  end.

(** The text between two positions of the subject, each position given by
    the suffix that starts there. *)
Definition consumed (start rest : string) : string :=
  Str.take (String.length start - String.length rest) start.

Section Matcher.
Context {R : Type}.

Fixpoint star_greedy (p : ascii -> bool) (k : string -> option R)
    (s : string) : option R :=
  match s with
  | String c s' =>
      if p c then
        match star_greedy p k s' with
        | Some r => Some r
        | None => k s
        end
      else k s
  | "" => k s
  end.

Fixpoint repeat_greedy (p : ascii -> bool) (lo hi : nat)
    (k : string -> option R) (s : string) : option R :=
  let stop := if Nat.eqb lo 0 then k s else None in
  match hi with
  | 0 => stop
  | S hi' =>
      match s with
      | String c s' =>
          if p c then
            match repeat_greedy p (Nat.pred lo) hi' k s' with
            | Some r => Some r
            | None => stop
            end
          else stop
      | "" => stop
      end
  end.
End Matcher.

Abbreviation groups := (gmap nat string).

(** [rmatch ic r k s g]: match [r] at the start of [s] with the groups [g]
    captured so far, and hand what is left to the continuation [k]; when
    [k] refuses, the next alternative of [r] is tried. *)
Fixpoint rmatch (ic : bool) (r : regex)
    (k : string -> groups -> option groups) (s : string) (g : groups)
    : option groups :=
  match r with
  | Empty => k s g
  | Atom a =>
      match s with
      | String c s' => if atom_ok ic a c then k s' g else None
      | "" => None
      end
  | Seq r1 r2 => rmatch ic r1 (rmatch ic r2 k) s g
  | Alt r1 r2 =>
      match rmatch ic r1 k s g with
      | Some m => Some m
      | None => rmatch ic r2 k s g
      end
  | Star a => star_greedy (atom_ok ic a) (fun s' => k s' g) s
  | Repeat a lo hi => repeat_greedy (atom_ok ic a) lo hi (fun s' => k s' g) s
  | Group n r1 => rmatch ic r1 (fun s' g' => k s' (<[n := consumed s s']> g')) s g
  end.

(** [re.search]: the first position, from the left, where the pattern
    matches; group 0 is the whole match. *)
Fixpoint search (ic : bool) (r : regex) (s : string) : option groups :=
  match rmatch ic r (fun s' g => Some (<[0 := consumed s s']> g)) s ∅ with
  | Some m => Some m
  | None =>
      match s with
      | "" => None
      | String _ s' => search ic r s'
      end
  end.

(** [m.group(n)] of a match in which group [n] took part. *)
Definition group (m : groups) (n : nat) : string := default "" (m !! n).

End Re.

(** *** Reading a pattern

    [compile] reads the pattern syntax the program uses: literals, [.],
    [\d], escaped punctuation, [*] and [{lo,hi}] after a one-character
    atom, [|] and numbered parentheses.  Anything else is refused. *)

Module ReParse.
Import Re.

Definition parsed : Type := option (regex * string * nat).

Fixpoint number (acc : nat) (s : string) : nat * string :=
  match s with
  | String c s' =>
      match Ascii.is_nat c with
      | Some d => number (10 * acc + d) s'
      | None => (acc, s)
      end
  | "" => (acc, s)
  end.

(** The quantifier, if any, that follows the atom [a]. *)
Definition quantified (a : atom) (s : string) (n : nat) : parsed :=
  match s with
  | String "*" s' => Some (Star a, s', n)
  | String "{" s' =>
      match number 0 s' with
      | (lo, String "," s1) =>
          match number 0 s1 with
          | (hi, String "}" s2) => Some (Repeat a lo hi, s2, n)
          | _ => None
          end
      | _ => None
      end
  | _ => Some (Atom a, s, n)
  end.

Fixpoint alternation (fuel : nat) (s : string) (n : nat) : parsed :=
  match fuel with
  | 0 => None
  | S fuel' =>
      match sequence fuel' s n with
      | Some (r1, String "|" s1, n1) =>
          match alternation fuel' s1 n1 with
          | Some (r2, s2, n2) => Some (Alt r1 r2, s2, n2)
          | None => None
          end
      | other => other
      end
  end
with sequence (fuel : nat) (s : string) (n : nat) : parsed :=
  match fuel with
  | 0 => None
  | S fuel' =>
      match s with
      | "" | String "|" _ | String ")" _ => Some (Empty, s, n)
      | _ =>
          match piece fuel' s n with
          | Some (r1, s1, n1) =>
              match sequence fuel' s1 n1 with
              | Some (Empty, s2, n2) => Some (r1, s2, n2)
              | Some (r2, s2, n2) => Some (Seq r1 r2, s2, n2)
              | None => None
              end
          | None => None
          end
      end
  end
with piece (fuel : nat) (s : string) (n : nat) : parsed :=
  match fuel with
  | 0 => None
  | S fuel' =>
      match s with
      | String "(" s1 =>
          match alternation fuel' s1 (S n) with
          | Some (r, String ")" s2, n2) => Some (Group n r, s2, n2)
          | _ => None
          end
      | String "\" (String "d" s1) => quantified ADigit s1 n
      | String "\" (String "." s1) => quantified (ALit ".") s1 n
      | String "." s1 => quantified ADot s1 n
      | String "\" _ | String "*" _ | String "{" _ | String "}" _
      | String "[" _ | String "]" _ | String "?" _ | String "+" _
      | String "^" _ | String "$" _ => None
      | String c s1 => quantified (ALit c) s1 n
      | "" => None
      end
  end.

Definition compile (pattern : string) : option regex :=
  match alternation (2 * String.length pattern + 2) pattern 1 with
  | Some (r, "", _) => Some r
  | _ => None
  end.

End ReParse.

(** [re.search(pattern, subject, re.IGNORECASE)]; [None] also stands for a
    pattern [re] would refuse. *)
Definition re_search_ignorecase (pattern subject : string) : option Re.groups :=
  match ReParse.compile pattern with
  | Some r => Re.search true r subject
  | None => None
  end.

(** ** [pull_artifacts] *)

Definition user_pattern : string := "(username|email) *:(.*)".
Definition pwd_pattern : string := "(email password|password|pass|pd|ps) *:(.*)".
Definition ip_pattern : string := ":*(\d{1,3}\.\d{1,3}\.\d{1,3}\.\d{1,3})".

Definition placeholder : string := "*".

Definition pull_artifacts (body : string) : string * string * string :=
  let user :=
    match re_search_ignorecase user_pattern body with
    | Some m1 => Str.strip (Re.group m1 2)
    | None => placeholder
    end in
  let pwd :=
    match re_search_ignorecase pwd_pattern body with
    | Some m2 => Str.strip (Re.group m2 2)
    | None => placeholder
    end in
  let ip :=
    match re_search_ignorecase ip_pattern body with
    | Some m3 => Str.strip (Re.group m3 1)
    | None => placeholder
    end in
  (user, pwd, ip).


(** ** Messages, records and the process state *)

(** What [email.message_from_file] returns for a message that is not
    multipart: the header lines in the order of the file and the text
    after them. *)
Record message := {
  msg_headers : list (string * string);
  msg_payload : string
}.

Module Message.

Definition keys (m : message) : list string := (msg_headers m).*1.

Fixpoint first_value (hs : list (string * string)) (name : string)
    : option string :=
  match hs with
  | [] => None
  | (k, v) :: hs' =>
      if decide (Str.lower k = name) then Some v else first_value hs' name
  end.

Fixpoint all_values (hs : list (string * string)) (name : string)
    : list string :=
  match hs with
  | [] => []
  | (k, v) :: hs' =>
      if decide (Str.lower k = name) then v :: all_values hs' name
      else all_values hs' name
  end.

(** [Message.get(name)]: the value of the first header of that name. *)
Definition get (m : message) (name : string) : option string :=
  first_value (msg_headers m) (Str.lower name).

(** [Message.get_all(name)]: all the values, [None] when there is none. *)
Definition get_all (m : message) (name : string) : option (list string) :=
  match all_values (msg_headers m) (Str.lower name) with
  | [] => None
  | values => Some values
  end.

Definition get_payload (m : message) : string := msg_payload m.

End Message.

(** The values a record holds: [None], a string, or a list of strings. *)
Inductive pyval :=
| PNone
| PStr (s : string)
| PList (l : list string).

Global Instance pyval_eq_dec : EqDecision pyval.
Proof. solve_decision. Defined.

Abbreviation record := (gmap string pyval).
Abbreviation row := (list pyval).

(** An opened input file: the path it was opened under and the message
    its text parses to. *)
Record file := {
  file_name : string;
  file_message : message
}.

Record dir_entry := {
  entry_name : string;
  entry_is_file : bool;
  entry_message : message
}.

Inductive node :=
| RegularFile
| Directory (entries : list dir_entry).

Inductive exn :=
| SystemExit (msg : string)
| FileNotFoundError
| NotADirectoryError
| IOError
| ValueError.

Global Instance exn_eq_dec : EqDecision exn.
Proof. solve_decision. Defined.

(** What the program reads but does not change: the input tree, and the
    output operation (counted from 0: open, header row, data rows, close)
    at which the operating system reports an error, if any.

    The input tree is taken to be readable: a path names nothing, a
    regular file, or a directory whose entries can be listed, tested and
    opened.  Failures of the operating system on an existing directory or
    on one of its files (permissions, dangling links) have no counterpart
    here, so what is proved about a run on a directory is proved for a
    readable one. *)
Record env := {
  fs : gmap string node;
  io_fault : option nat
}.

Record state := {
  email_header_fields : gset string;   (* the module-level set *)
  stdout : list string;                (* the lines printed so far *)
  disk : gmap string (list row);       (* the rows issued to each output file *)
  io_clock : nat                       (* output operations issued so far *)
}.

Definition initial_state : state :=
  {| email_header_fields := ∅; stdout := []; disk := ∅; io_clock := 0 |}.

Inductive result (A : Type) :=
| Ret (a : A)
| Raise (e : exn).
Arguments Ret {A} a.
Arguments Raise {A} e.

(** Computations that read and change the state and may raise. *)
Definition M (A : Type) : Type := state -> result A * state.

Global Instance M_ret : MRet M := fun A a st => (Ret a, st).
Global Instance M_bind : MBind M := fun A B f c st =>
  match c st with
  | (Ret a, st') => f a st'
  | (Raise e, st') => (Raise e, st')
  end.

Definition raise {A} (e : exn) : M A := fun st => (Raise e, st).

(** [try: body except e: handler] *)
Definition try_except {A} (body : M A) (e : exn) (handler : M A) : M A :=
  fun st =>
    match body st with
    | (Raise e', st') => if decide (e' = e) then handler st' else (Raise e', st')
    | r => r
    end.

Definition modify (f : state -> state) : M unit := fun st => (Ret (), f st).

Definition print (line : string) : M unit :=
  modify (fun st => {| email_header_fields := email_header_fields st;
                       stdout := stdout st ++ [line];
                       disk := disk st;
                       io_clock := io_clock st |}).

Definition get_fields : M (gset string) := fun st =>
  (Ret (email_header_fields st), st).

Definition set_fields (X : gset string) : M unit :=
  modify (fun st => {| email_header_fields := X;
                       stdout := stdout st;
                       disk := disk st;
                       io_clock := io_clock st |}).

(** [sys.exit(msg)] *)
Definition sys_exit {A} (msg : string) : M A := raise (SystemExit msg).

(** ** The operating-system and library calls of the program *)

Module Os.

Definition path_exists (e : env) (path : string) : bool :=
  bool_decide (is_Some (fs e !! path)).

Definition starts_with_slash (s : string) : bool :=
  match s with String "/" _ => true | _ => false end.

(** [os.path.join] of a directory and one name. *)
Definition path_join (a b : string) : string :=
  if starts_with_slash b then b
  else if Str.is_empty a || Str.ends_with "/" a then a +:+ b
  else a +:+ "/" +:+ b.

(** [os.scandir(path)]: the entries of the directory, which is readable
    when it exists. *)
Definition scandir (e : env) (path : string) : M (list dir_entry) :=
  match fs e !! path with
  | Some (Directory entries) => mret entries
  | Some RegularFile => raise NotADirectoryError
  | None => raise FileNotFoundError
  end.

(** [os.fspath(entry)], which is [entry.path]. *)
Definition entry_path (dir : string) (entry : dir_entry) : string :=
  path_join dir (entry_name entry).

(** [open(entry, "r", ...)] of an entry that can be read. *)
Definition open_r (dir : string) (entry : dir_entry) : file :=
  {| file_name := entry_path dir entry; file_message := entry_message entry |}.

Definition tick (st : state) : state :=
  {| email_header_fields := email_header_fields st;
     stdout := stdout st;
     disk := disk st;
     io_clock := S (io_clock st) |}.

Definition set_table (path : string) (rows : list row) (st : state) : state :=
  {| email_header_fields := email_header_fields st;
     stdout := stdout st;
     disk := <[path := rows]> (disk st);
     io_clock := io_clock st |}.

(** One output operation: it fails when the environment says so. *)
Definition io_op (e : env) : M unit := fun st =>
  if decide (io_fault e = Some (io_clock st))
  then (Raise IOError, tick st)
  else (Ret (), tick st).

(** [open(path, 'w', ...)]: the table is created empty. *)
Definition open_w (e : env) (path : string) : M unit :=
  io_op e;; modify (set_table path []).

(** A row handed to the output file.  The table of a path is the list of
    rows issued to it, in order: it is what the file holds once it has
    been closed without an error.  Python buffers a text file, so after a
    failed operation the device can hold fewer rows than were issued;
    that is not described here. *)
Definition write_row (e : env) (path : string) (r : row) : M unit :=
  io_op e;;
  modify (fun st => set_table path (default [] (disk st !! path) ++ [r]) st).

Definition close (e : env) : M unit := io_op e.

End Os.

Module Fnmatch.
Import Re.

(** [fnmatch.translate]: [*] is [.*] and [?] is [.], both under [(?s)];
    the other characters of the pattern stand for themselves. *)
Fixpoint translate (pat : string) : regex :=
  match pat with
  | "" => Empty
  | String "*" pat' => Seq (Star AAny) (translate pat')
  | String "?" pat' => Seq (Atom AAny) (translate pat')
  | String c pat' => Seq (Atom (ALit c)) (translate pat')
  end.

(** [fnmatch.fnmatch] where [os.path.normcase] changes nothing: the whole
    name has to match. *)
Definition fnmatch (name pat : string) : bool :=
  bool_decide (is_Some (
    rmatch false (translate pat)
      (fun rest g => if Str.is_empty rest then Some g else None) name ∅)).

End Fnmatch.

Module Csv.

(** [dict(pairs)]: a later pair replaces an earlier one with the same key. *)
Definition py_dict (pairs : list (string * pyval)) : record :=
  foldl (fun m kv => <[kv.1 := kv.2]> m) ∅ pairs.

(** [DictWriter._dict_to_list] with [extrasaction='raise'] and
    [restval='']. *)
Definition dict_to_list (fieldnames : list string) (rowdict : record)
    : result row :=
  if decide (dom rowdict ⊆ list_to_set fieldnames)
  then Ret ((fun key => default (PStr "") (rowdict !! key)) <$> fieldnames)
  else Raise ValueError.

(** [DictWriter.writerow]: the keys are checked, then the row is handed
    to the file.  Turning the cells into text and encoding them as UTF-8
    always succeeds on the strings of this file (code points below 256),
    so it is not a failure case of its own. *)
Definition writerow (e : env) (path : string) (fieldnames : list string)
    (rowdict : record) : M unit :=
  match dict_to_list fieldnames rowdict with
  | Ret r => Os.write_row e path r
  | Raise err => raise err
  end.

(** [DictWriter.writeheader]: the row of [dict(zip(fieldnames, fieldnames))]. *)
Definition writeheader (e : env) (path : string) (fieldnames : list string)
    : M unit :=
  writerow e path fieldnames
    (py_dict (zip fieldnames (PStr <$> fieldnames))).

End Csv.

(** ** The program *)

(** [sorted] on strings: ascending by code points. *)
Definition sorted (l : list string) : list string := merge_sort String.le l.

(** [l.count(x)] *)
Definition count (x : string) (l : list string) : nat :=
  length (filter (fun y => y = x) l).

Definition add_email_header_tracker (header_f : gset string) : M bool :=
  fields ← get_fields;
  set_fields
    (set_fold (fun x acc => if decide (x ∈ acc) then acc else {[x]} ∪ acc)
       fields header_f);;
  mret true.

Definition user_defined_fields : list string :=
  ["body"; "username"; "password"; "ip"; "source-email-file"].

Definition parse_header (f : file) : M record :=
  let message := file_message f in
  let email_headers := Str.lower <$> Message.keys message in
  let dup_email_header_fields : gset string :=
    list_to_set (filter (fun x => 1 < count x email_headers) email_headers) in
  let uniq_email_header_fields : gset string := list_to_set email_headers in
  add_email_header_tracker uniq_email_header_fields;;
  let header : record := ∅ in
  let header :=
    <["source-email-file" := PStr (Str.basename (Str.lower (file_name f)))]>
      header in
  let header :=
    set_fold
      (fun x h =>
         if decide (x ∉ dup_email_header_fields)
         then <[x := from_option PStr PNone (Message.get message x)]> h
         else <[x := from_option PList PNone (Message.get_all message x)]> h)
      header uniq_email_header_fields in
  let body := Message.get_payload message in
  let header := <["body" := PStr body]> header in
  let '(user, pwd, ip) := pull_artifacts body in
  let header := <["username" := PStr user]> header in
  let header := <["password" := PStr pwd]> header in
  let header := <["ip" := PStr ip]> header in
  mret header.

Fixpoint load_entries (path : string) (entries : list dir_entry)
    (data : list record) : M (list record) :=
  match entries with
  | [] => mret data
  | entry :: rest =>
      if entry_is_file entry && Fnmatch.fnmatch (Os.entry_path path entry) "*.eml"
      then
        print ("Working on parsing file: " +:+ entry_name entry);;
        temp_dict ← parse_header (Os.open_r path entry);
        load_entries path rest (data ++ [temp_dict])
      else load_entries path rest data
  end.

Definition load_data (e : env) (path : string) : M (list record) :=
  list_of_Entries ← Os.scandir e path;
  load_entries path list_of_Entries [].

Fixpoint write_rows (e : env) (path : string) (fieldnames : list string)
    (data_list : list record) : M unit :=
  match data_list with
  | [] => mret ()
  | dict_list :: rest =>
      Csv.writerow e path fieldnames dict_list;;
      write_rows e path fieldnames rest
  end.

Definition csv_columns_of (fields : gset string) : list string :=
  sorted (elements fields) ++ user_defined_fields.

Definition write_data_to_file (e : env) (data_list : list record)
    (output_file : string) : M bool :=
  fields ← get_fields;
  let csv_columns := csv_columns_of fields in
  let csv_file := output_file in
  try_except
    (Os.open_w e csv_file;;
     Csv.writeheader e csv_file csv_columns;;
     write_rows e csv_file csv_columns data_list;;
     Os.close e;;
     mret true)
    IOError
    (print "I/O Error!";; mret false).

Definition main (e : env) (argv : list string) : M unit :=
  match argv with
  | [_; arg1; arg2] =>
      if negb (Os.path_exists e arg1)
      then sys_exit "Argument provided is not a directory."
      else
        processed_data ← load_data e arg1;
        print ("Processed " +:+ pretty (length processed_data) +:+ " files");;
        ok ← write_data_to_file e processed_data arg2;
        if ok : bool then print "CSV file successfully written!" else mret ()
  | _ =>
      sys_exit ("Error: Please provide a directory path to where the emails are located and "
                +:+ "a name for the .CSV file. ")
  end.

(** The exit status of the process. *)
Definition exit_status {A} (r : result A) : nat :=
  match r with
  | Ret _ => 0
  | Raise _ => 1
  end.

(** * Properties *)

(** ** The schema set *)

Section Tracker.

Lemma tracker_fold_union (X Y : gset string) :
  set_fold (fun x acc => if decide (x ∈ acc) then acc else {[x]} ∪ acc) X Y
  = X ∪ Y.
Proof.
  apply (set_fold_ind_L (fun r Y => r = X ∪ Y)).
  - set_solver.
  - intros x Z r Hx ->. case_decide; set_solver.
Qed.

Definition with_fields (X : gset string) (st : state) : state :=
  {| email_header_fields := X;
     stdout := stdout st;
     disk := disk st;
     io_clock := io_clock st |}.

Lemma add_email_header_tracker_run header_f st :
  add_email_header_tracker header_f st
  = (Ret true, with_fields (email_header_fields st ∪ header_f) st).
Proof.
  unfold add_email_header_tracker, get_fields, set_fields, modify.
  unfold mbind, M_bind, mret, M_ret; simpl.
  by rewrite tracker_fold_union.
Qed.

End Tracker.

(** ** Header normalisation *)

(** The values of the headers of a message whose lower-cased name is [x],
    in the order of the source. *)
Definition occurrences (x : string) (hs : list (string * string))
    : list string :=
  (filter (fun kv => Str.lower kv.1 = x) hs).*2.

Definition header_names (f : file) : list string :=
  Str.lower <$> Message.keys (file_message f).

(** The shape the specification asks of the record [rec] at the name [x]:
    a scalar for one occurrence, the list of all values for several. *)
Definition shape_preserved (f : file) (rec : record) (x : string) : Prop :=
  let occ := occurrences x (msg_headers (file_message f)) in
  (length occ = 1 → ∃ v, occ = [v] ∧ rec !! x = Some (PStr v)) ∧
  (1 < length occ → rec !! x = Some (PList occ)).

Section Headers.

Lemma chars_lower_idemp a : Chars.lower (Chars.lower a) = Chars.lower a.
Proof. by destruct a as [[] [] [] [] [] [] [] []]. Qed.

Lemma str_lower_idemp s : Str.lower (Str.lower s) = Str.lower s.
Proof. induction s; simpl; [done|]. by rewrite chars_lower_idemp, IHs. Qed.

Lemma all_values_occurrences hs x :
  Message.all_values hs x = occurrences x hs.
Proof.
  unfold occurrences. induction hs as [|[k v] hs IH]; simpl; [done|].
  rewrite filter_cons; simpl. case_decide; simpl; by rewrite IH.
Qed.

Lemma first_value_occurrences hs x :
  Message.first_value hs x = head (occurrences x hs).
Proof.
  unfold occurrences. induction hs as [|[k v] hs IH]; simpl; [done|].
  rewrite filter_cons; simpl. by case_decide.
Qed.

Lemma count_occurrences hs x :
  count x (Str.lower <$> hs.*1) = length (occurrences x hs).
Proof.
  unfold count, occurrences. induction hs as [|[k v] hs IH]; [done|].
  rewrite !fmap_cons, !filter_cons; simpl fst.
  case_decide; rewrite ?fmap_cons; simpl; by rewrite IH.
Qed.

Lemma occurrences_nonempty hs x :
  x ∈ Str.lower <$> hs.*1 → 0 < length (occurrences x hs).
Proof.
  rewrite <-count_occurrences. unfold count.
  intros Hx. destruct (filter _ _) as [|y l] eqn:E; simpl; [|lia].
  assert (x ∈ filter (fun y => y = x) (Str.lower <$> hs.*1)) as Hin
    by (by apply list_elem_of_filter).
  rewrite E in Hin. by apply not_elem_of_nil in Hin.
Qed.

(** The loop over the distinct names: each name is assigned once. *)
Lemma header_loop_lookup (F : string → record → record)
    (value : string → pyval) (h0 : record) (uniq : gset string) (x : string) :
  (∀ y h, F y h = <[y := value y]> h) →
  set_fold F h0 uniq !! x
  = if decide (x ∈ uniq) then Some (value x) else h0 !! x.
Proof.
  intros HF. revert x. revert uniq.
  refine (set_fold_ind_L
    (fun (r : record) (X : gset string) =>
       ∀ x, r !! x = if decide (x ∈ X) then Some (value x) else h0 !! x)
    _ _ _ _).
  - intros x. case_decide; [set_solver|done].
  - intros y X r Hy IH x. rewrite HF, lookup_insert. case_decide as Hxy.
    + subst. rewrite decide_True; [done|set_solver].
    + rewrite IH. repeat case_decide; set_solver.
Qed.

(** What one name of the message is bound to by the loop of
    [parse_header]. *)
Definition header_value (f : file) (x : string) : pyval :=
  let message := file_message f in
  let email_headers := header_names f in
  let dup : gset string :=
    list_to_set (filter (fun x => 1 < count x email_headers) email_headers) in
  if decide (x ∉ dup)
  then from_option PStr PNone (Message.get message x)
  else from_option PList PNone (Message.get_all message x).

Definition header_loop (f : file) (h0 : record) : record :=
  let message := file_message f in
  let email_headers := header_names f in
  let dup : gset string :=
    list_to_set (filter (fun x => 1 < count x email_headers) email_headers) in
  set_fold
    (fun x h =>
       if decide (x ∉ dup)
       then <[x := from_option PStr PNone (Message.get message x)]> h
       else <[x := from_option PList PNone (Message.get_all message x)]> h)
    h0 (list_to_set email_headers : gset string).

Lemma header_loop_at f h0 x :
  header_loop f h0 !! x
  = if decide (x ∈ header_names f) then Some (header_value f x) else h0 !! x.
Proof.
  unfold header_loop.
  rewrite (header_loop_lookup _ (header_value f)).
  - repeat case_decide; set_solver.
  - intros y h. unfold header_value. by case_decide.
Qed.

Definition record_of (f : file) : record :=
  let body := Message.get_payload (file_message f) in
  <["ip" := PStr (pull_artifacts body).2]>
    (<["password" := PStr (pull_artifacts body).1.2]>
      (<["username" := PStr (pull_artifacts body).1.1]>
        (<["body" := PStr body]>
          (header_loop f
             (<["source-email-file" :=
                  PStr (Str.basename (Str.lower (file_name f)))]> ∅))))).

Lemma parse_header_run f st :
  parse_header f st
  = (Ret (record_of f),
     with_fields (email_header_fields st ∪ list_to_set (header_names f)) st).
Proof.
  unfold parse_header.
  unfold mbind at 1. unfold M_bind. rewrite add_email_header_tracker_run.
  unfold record_of, Message.get_payload.
  destruct (pull_artifacts (msg_payload (file_message f))) as [[user pwd] ip].
  reflexivity.
Qed.

End Headers.

Section Shape.

Lemma header_names_eq f :
  header_names f = Str.lower <$> (msg_headers (file_message f)).*1.
Proof. reflexivity. Qed.

Lemma lower_of_header_name f x : x ∈ header_names f → Str.lower x = x.
Proof.
  unfold header_names. intros [k [-> _]]%list_elem_of_fmap.
  apply str_lower_idemp.
Qed.

Lemma header_value_shape f x :
  x ∈ header_names f →
  let occ := occurrences x (msg_headers (file_message f)) in
  (length occ = 1 → ∃ v, occ = [v] ∧ header_value f x = PStr v) ∧
  (1 < length occ → header_value f x = PList occ).
Proof.
  intros Hx occ. unfold header_value.
  assert (count x (header_names f) = length occ) as Hcount
    by apply count_occurrences.
  pose proof (lower_of_header_name f x Hx) as Hlow.
  split; intros Hlen.
  - rewrite decide_True.
    + unfold Message.get. rewrite Hlow, first_value_occurrences.
      fold occ. destruct occ as [|v [|w occ']]; simplify_eq/=. by exists v.
    + rewrite elem_of_list_to_set, list_elem_of_filter. lia.
  - rewrite decide_False.
    + unfold Message.get_all. rewrite Hlow, all_values_occurrences.
      fold occ. destruct occ as [|v occ']; simplify_eq/=; [lia|done].
    + intros Hn. apply Hn.
      rewrite elem_of_list_to_set, list_elem_of_filter. split; [lia|done].
Qed.

Definition derived_fields : list string :=
  ["body"; "username"; "password"; "ip"].

Lemma record_of_header f x :
  x ∈ header_names f → x ∉ derived_fields →
  record_of f !! x = Some (header_value f x).
Proof.
  intros Hx Hnot. unfold record_of, derived_fields in *.
  rewrite !lookup_insert_ne by set_solver.
  rewrite header_loop_at. by rewrite decide_True.
Qed.

(** The value [parse_header] computes itself for a reserved key. *)
Definition derived_value (f : file) (x : string) : pyval :=
  let body := Message.get_payload (file_message f) in
  if decide (x = "body") then PStr body
  else if decide (x = "username") then PStr (pull_artifacts body).1.1
  else if decide (x = "password") then PStr (pull_artifacts body).1.2
  else if decide (x = "ip") then PStr (pull_artifacts body).2
  else PStr (Str.basename (Str.lower (file_name f))).

Lemma record_of_derived f x :
  x ∈ derived_fields → record_of f !! x = Some (derived_value f x).
Proof.
  unfold derived_fields, derived_value, record_of.
  rewrite !elem_of_cons, elem_of_nil.
  intros [->|[->|[->|[->|[]]]]]; simpl;
    by rewrite ?lookup_insert_eq, ?lookup_insert_ne, ?lookup_insert_eq by done.
Qed.

Lemma record_of_file_name f :
  "source-email-file" ∉ header_names f →
  record_of f !! "source-email-file"
  = Some (derived_value f "source-email-file").
Proof.
  intros Hx. unfold record_of.
  rewrite !lookup_insert_ne by done.
  rewrite header_loop_at, decide_False by done.
  by rewrite lookup_insert_eq.
Qed.

Lemma record_of_dom f :
  dom (record_of f)
  = list_to_set (header_names f) ∪ list_to_set user_defined_fields.
Proof.
  apply set_eq. intros x. rewrite elem_of_dom.
  destruct (decide (x ∈ derived_fields)) as [Hd|Hd].
  - rewrite record_of_derived by done.
    unfold derived_fields, user_defined_fields in *. split; [|by eauto].
    intros _. set_solver.
  - unfold record_of. unfold derived_fields in Hd.
    rewrite !lookup_insert_ne by set_solver.
    rewrite header_loop_at. case_decide as Hin.
    + split; [|by eauto]. intros _. set_solver.
    + rewrite lookup_insert. case_decide as Heq.
      * subst. split; [|by eauto]. intros _. set_solver.
      * rewrite lookup_empty. split; [by intros [? ?]|].
        unfold user_defined_fields. set_solver.
Qed.

End Shape.

(** ** The column order *)

Section Columns.

Lemma sorted_Sorted l : Sorted String.le (sorted l).
Proof. apply (Sorted_merge_sort String.le). Qed.

Lemma sorted_Permutation l : sorted l ≡ₚ l.
Proof. apply merge_sort_Permutation. Qed.

Lemma sorted_elements_NoDup (X : gset string) : NoDup (sorted (elements X)).
Proof. rewrite sorted_Permutation. apply NoDup_elements. Qed.

Lemma elem_of_sorted_elements (X : gset string) x :
  x ∈ sorted (elements X) ↔ x ∈ X.
Proof. by rewrite sorted_Permutation, elem_of_elements. Qed.





End Columns.

(** ** Writing the table *)

(** The cells of the data rows: the record's value under each column, or
    the empty string. *)
Definition rows_of (cols : list string) (data : list record) : list row :=
  (fun rec => (fun key => default (PStr "") (rec !! key)) <$> cols) <$> data.

(** The environment makes one of the [n] output operations from [lo] on
    fail. *)
Definition io_fails_in (e : env) (lo n : nat) : Prop :=
  ∃ k, io_fault e = Some k ∧ lo ≤ k < lo + n.

Global Instance io_fails_in_dec e lo n : Decision (io_fails_in e lo n).
Proof.
  unfold io_fails_in. destruct (io_fault e) as [k|].
  - destruct (decide (lo ≤ k < lo + n)) as [H|H].
    + left. by exists k.
    + right. intros [k' [[= <-] ?]]. done.
  - right. by intros [k' [[=] ?]].
Defined.

Section Writer.

Lemma header_dict_lookup (f : string → pyval) (l : list string)
    (m : record) k :
  foldl (fun m kv => <[kv.1 := kv.2]> m) m (zip l (f <$> l)) !! k
  = if decide (k ∈ l) then Some (f k) else m !! k.
Proof.
  revert m. induction l as [|a l IH]; intros m; simpl.
  - done.
  - rewrite IH. destruct (decide (k ∈ l)) as [Hin|Hin].
    + by rewrite decide_True by (by right).
    + rewrite lookup_insert. destruct (decide (a = k)) as [->|Hne].
      * by rewrite decide_True by left.
      * rewrite decide_False; [done|]. by intros [->|?]%elem_of_cons.
Qed.

Lemma header_dict_to_list cols :
  Csv.dict_to_list cols (Csv.py_dict (zip cols (PStr <$> cols)))
  = Ret (PStr <$> cols).
Proof.
  unfold Csv.dict_to_list, Csv.py_dict. rewrite decide_True.
  - f_equal. apply list_fmap_ext. intros i x Hx.
    rewrite header_dict_lookup, decide_True; [done|].
    by eapply list_elem_of_lookup_2.
  - intros k [v Hk]%elem_of_dom. rewrite header_dict_lookup in Hk.
    case_decide; [by apply elem_of_list_to_set|]. by rewrite lookup_empty in Hk.
Qed.

Lemma io_op_ok e st :
  io_fault e ≠ Some (io_clock st) → Os.io_op e st = (Ret (), Os.tick st).
Proof. intros H. unfold Os.io_op. by rewrite decide_False. Qed.

Lemma io_op_fail e st :
  io_fault e = Some (io_clock st) → Os.io_op e st = (Raise IOError, Os.tick st).
Proof. intros H. unfold Os.io_op. by rewrite decide_True. Qed.

Lemma Ret_inj {A} (a b : A) : Ret a = Ret b → a = b.
Proof. by intros [=]. Qed.

Lemma bind_run {A B} (c : M A) (f : A → M B) st :
  (c ≫= f) st
  = match c st with
    | (Ret a, st') => f a st'
    | (Raise err, st') => (Raise err, st')
    end.
Proof. reflexivity. Qed.

(** The state components a run leaves alone. *)
Definition same_console (st st' : state) : Prop :=
  stdout st' = stdout st ∧ email_header_fields st' = email_header_fields st.

Lemma write_row_ok e out r old st :
  io_fault e ≠ Some (io_clock st) → disk st !! out = Some old →
  ∃ st', Os.write_row e out r st = (Ret (), st') ∧ same_console st st' ∧
         io_clock st' = S (io_clock st) ∧ disk st' !! out = Some (old ++ [r]).
Proof.
  intros Hok Hold. unfold Os.write_row. rewrite bind_run, io_op_ok by done.
  eexists; split; [reflexivity|]. unfold same_console; simpl.
  rewrite Hold, lookup_insert_eq. done.
Qed.

Lemma write_row_fail e out r st :
  io_fault e = Some (io_clock st) →
  ∃ st', Os.write_row e out r st = (Raise IOError, st') ∧ same_console st st' ∧
         disk st' = disk st.
Proof.
  intros Hf. unfold Os.write_row. rewrite bind_run, io_op_fail by done.
  eexists; split; [reflexivity|]. by unfold same_console.
Qed.

Lemma write_rows_ok e out cols data : ∀ st old,
  Forall (fun rec : record => dom rec ⊆ list_to_set cols) data →
  disk st !! out = Some old →
  ¬ io_fails_in e (io_clock st) (length data) →
  ∃ st', write_rows e out cols data st = (Ret (), st') ∧ same_console st st' ∧
         io_clock st' = io_clock st + length data ∧
         disk st' !! out = Some (old ++ rows_of cols data).
Proof.
  induction data as [|rec data IH]; intros st old Hdom Hold Hio; simpl.
  - exists st. rewrite app_nil_r, Nat.add_0_r. by unfold same_console.
  - apply Forall_cons in Hdom as [Hrec Hdom].
    rewrite bind_run. unfold Csv.writerow, Csv.dict_to_list.
    rewrite decide_True by done.
    destruct (write_row_ok e out
      ((fun key => default (PStr "") (rec !! key)) <$> cols) old st)
      as (st1 & -> & [Hout Hf] & Hclock & Hdisk); [|done|].
    { intros Hk. apply Hio. exists (io_clock st). simpl. split; [done|lia]. }
    destruct (IH st1 _ Hdom Hdisk) as (st2 & -> & [Hout2 Hf2] & Hclock2 & Hdisk2).
    { intros (k & Hk & Hr). apply Hio. exists k. simpl. split; [done|lia]. }
    exists st2. split; [done|]. unfold same_console.
    rewrite Hout2, Hf2, Hout, Hf, Hclock2, Hclock, Hdisk2.
    rewrite <-(assoc_L (++)). split_and!; try done. lia.
Qed.

Lemma write_rows_fail e out cols data : ∀ st old,
  Forall (fun rec : record => dom rec ⊆ list_to_set cols) data →
  disk st !! out = Some old →
  io_fails_in e (io_clock st) (length data) →
  ∃ st', write_rows e out cols data st = (Raise IOError, st') ∧
         same_console st st'.
Proof.
  induction data as [|rec data IH]; intros st old Hdom Hold Hio; simpl.
  - destruct Hio as (k & _ & Hk). simpl in Hk. lia.
  - apply Forall_cons in Hdom as [Hrec Hdom].
    rewrite bind_run. unfold Csv.writerow, Csv.dict_to_list.
    rewrite decide_True by done.
    destruct (decide (io_fault e = Some (io_clock st))) as [Hnow|Hlater].
    + destruct (write_row_fail e out
        ((fun key => default (PStr "") (rec !! key)) <$> cols) st Hnow)
        as (st1 & -> & Hsame & _). by exists st1.
    + destruct (write_row_ok e out
        ((fun key => default (PStr "") (rec !! key)) <$> cols) old st)
        as (st1 & -> & [Hout Hf] & Hclock & Hdisk); [done..|].
      destruct (IH st1 _ Hdom Hdisk) as (st2 & -> & [Hout2 Hf2]).
      { destruct Hio as (k & Hk & Hr). exists k. split; [done|].
        simpl in Hr. assert (k ≠ io_clock st) by congruence. lia. }
      exists st2. split; [done|]. unfold same_console. by rewrite Hout2, Hf2.
Qed.

End Writer.
Section WriteData.

Lemma open_w_ok e out st :
  io_fault e ≠ Some (io_clock st) →
  Os.open_w e out st = (Ret (), Os.set_table out [] (Os.tick st)).
Proof.
  intros H. unfold Os.open_w. by rewrite bind_run, io_op_ok.
Qed.

Lemma open_w_fail e out st :
  io_fault e = Some (io_clock st) →
  Os.open_w e out st = (Raise IOError, Os.tick st).
Proof.
  intros H. unfold Os.open_w. by rewrite bind_run, io_op_fail.
Qed.

Lemma writeheader_run e out cols st :
  Csv.writeheader e out cols st = Os.write_row e out (PStr <$> cols) st.
Proof.
  unfold Csv.writeheader, Csv.writerow. by rewrite header_dict_to_list.
Qed.

Lemma write_data_to_file_unfold e data out st :
  write_data_to_file e data out st
  = let cols := csv_columns_of (email_header_fields st) in
    match (Os.open_w e out;;
           Csv.writeheader e out cols;;
           write_rows e out cols data;;
           Os.close e;;
           mret true) st with
    | (Raise IOError, st') => ((print "I/O Error!";; mret false) : M bool) st'
    | r => r
    end.
Proof.
  unfold write_data_to_file, get_fields. rewrite bind_run. unfold try_except.
  cbv zeta.
  match goal with
  | |- context [match ?b st with _ => _ end] =>
      destruct (b st) as [[ok|err] st']
  end; [done|].
  by destruct err.
Qed.

Lemma write_data_to_file_ok e data out st :
  let cols := csv_columns_of (email_header_fields st) in
  Forall (fun rec : record => dom rec ⊆ list_to_set cols) data →
  ¬ io_fails_in e (io_clock st) (length data + 3) →
  ∃ st', write_data_to_file e data out st = (Ret true, st') ∧
         same_console st st' ∧
         disk st' !! out = Some ((PStr <$> cols) :: rows_of cols data).
Proof.
  intros cols Hdom Hio. rewrite write_data_to_file_unfold. fold cols. cbv zeta.
  assert (∀ k, io_clock st ≤ k < io_clock st + (length data + 3) →
               io_fault e ≠ Some k) as Hk.
  { intros k Hr Hf. apply Hio. by exists k. }
  rewrite bind_run, open_w_ok by (apply Hk; lia).
  rewrite bind_run, writeheader_run.
  destruct (write_row_ok e out (PStr <$> cols) [] (Os.set_table out [] (Os.tick st)))
    as (st1 & -> & [Hout1 Hf1] & Hc1 & Hd1).
  { simpl. apply Hk. lia. }
  { simpl. apply lookup_insert_eq. }
  simpl in Hout1, Hf1, Hc1, Hd1.
  rewrite bind_run.
  destruct (write_rows_ok e out cols data st1 _ Hdom Hd1)
    as (st2 & -> & [Hout2 Hf2] & Hc2 & Hd2).
  { intros (k & Hf & Hr). apply (Hk k); [lia|done]. }
  rewrite bind_run. unfold Os.close.
  rewrite io_op_ok by (apply Hk; lia).
  eexists; split; [reflexivity|]. unfold same_console; simpl.
  by rewrite Hout2, Hf2, Hout1, Hf1, Hd2.
Qed.

Lemma write_data_to_file_fail e data out st :
  let cols := csv_columns_of (email_header_fields st) in
  Forall (fun rec : record => dom rec ⊆ list_to_set cols) data →
  io_fails_in e (io_clock st) (length data + 3) →
  ∃ st', write_data_to_file e data out st = (Ret false, st') ∧
         stdout st' = stdout st ++ ["I/O Error!"] ∧
         email_header_fields st' = email_header_fields st.
Proof.
  intros cols Hdom (k & Hfault & Hr).
  rewrite write_data_to_file_unfold. fold cols. cbv zeta.
  destruct (decide (k = io_clock st)) as [->|Hne0].
  { rewrite bind_run, open_w_fail by done. by eexists. }
  rewrite bind_run, open_w_ok by congruence.
  rewrite bind_run, writeheader_run.
  destruct (decide (k = S (io_clock st))) as [->|Hne1].
  { destruct (write_row_fail e out (PStr <$> cols)
      (Os.set_table out [] (Os.tick st))) as (st1 & -> & [Hout1 Hf1] & _);
      [done|]. simpl in *. eexists; split; [reflexivity|]. simpl.
    by rewrite Hout1, Hf1. }
  destruct (write_row_ok e out (PStr <$> cols) [] (Os.set_table out [] (Os.tick st)))
    as (st1 & -> & [Hout1 Hf1] & Hc1 & Hd1).
  { simpl. congruence. }
  { simpl. apply lookup_insert_eq. }
  simpl in Hout1, Hf1, Hc1, Hd1.
  rewrite bind_run.
  destruct (decide (k < io_clock st1 + length data)) as [Hin|Hout].
  { destruct (write_rows_fail e out cols data st1 _ Hdom Hd1)
      as (st2 & -> & [Hout2 Hf2]).
    { exists k. split; [done|lia]. }
    eexists; split; [reflexivity|]. simpl. by rewrite Hout2, Hf2, Hout1, Hf1. }
  destruct (write_rows_ok e out cols data st1 _ Hdom Hd1)
    as (st2 & -> & [Hout2 Hf2] & Hc2 & Hd2).
  { intros (k' & Hf' & Hr'). rewrite Hfault in Hf'. simplify_eq. lia. }
  rewrite bind_run. unfold Os.close.
  rewrite io_op_fail by (rewrite Hfault; f_equal; lia).
  eexists; split; [reflexivity|]. simpl. by rewrite Hout2, Hf2, Hout1, Hf1.
Qed.

End WriteData.
(** ** Facts on strings *)

Section StringFacts.

Lemma str_app_nil_l s : "" +:+ s = s.
Proof. reflexivity. Qed.

Lemma str_app_cons a s t : String a s +:+ t = String a (s +:+ t).
Proof. reflexivity. Qed.

Lemma str_app_nil_r s : s +:+ "" = s.
Proof. induction s; [done|]. by rewrite str_app_cons, IHs. Qed.

Lemma str_app_assoc s t u : (s +:+ t) +:+ u = s +:+ (t +:+ u).
Proof. induction s; [done|]. by rewrite !str_app_cons, IHs. Qed.

Lemma str_app_length s t :
  String.length (s +:+ t) = String.length s + String.length t.
Proof. induction s; [done|]. rewrite str_app_cons. simpl. by rewrite IHs. Qed.

Lemma ends_with_unfold suffix s :
  Str.ends_with suffix s
  = if String.eqb s suffix then true
    else match s with
         | "" => false
         | String _ s' => Str.ends_with suffix s'
         end.
Proof. by destruct s. Qed.

(** [ends_with] holds exactly of the strings that end with the suffix. *)
Lemma ends_with_spec suffix s :
  Str.ends_with suffix s = true ↔ ∃ stem, s = stem +:+ suffix.
Proof.
  induction s as [|a s IH]; rewrite ends_with_unfold.
  - destruct (String.eqb_spec "" suffix) as [<-|Hne].
    + split; [by exists ""|done].
    + split; [done|]. intros [[|b stem] Hs]; [|discriminate Hs].
      by rewrite str_app_nil_l in Hs.
  - destruct (String.eqb_spec (String a s) suffix) as [<-|Hne].
    + split; [by exists ""|done].
    + rewrite IH. split.
      * intros [stem ->]. by exists (String a stem).
      * intros [[|b stem] Hs]; [by rewrite str_app_nil_l in Hs|].
        rewrite str_app_cons in Hs. simplify_eq. by exists stem.
Qed.

End StringFacts.

(** ** File selection *)

Section Selection.
Import Re.

Lemma star_any_some {R} (k : string → option R) s :
  is_Some (star_greedy (fun _ => true) k s)
  ↔ ∃ pre rest, s = pre +:+ rest ∧ is_Some (k rest).
Proof.
  induction s as [|a s IH]; simpl.
  - split.
    + intros H. by exists "", "".
    + intros ([|b pre] & rest & Hs & H); [|discriminate Hs].
      rewrite str_app_nil_l in Hs. by subst.
  - destruct (star_greedy _ k s) as [r|] eqn:E.
    + split; [|by eauto]. intros _.
      destruct IH as [IH _]. destruct IH as (pre & rest & -> & H); [by eauto|].
      by exists (String a pre), rest.
    + split.
      * intros H. by exists "", (String a s).
      * intros ([|b pre] & rest & Hs & H).
        { rewrite str_app_nil_l in Hs. by subst. }
        rewrite str_app_cons in Hs. simplify_eq.
        destruct IH as [_ IH]. destruct IH as [? ?]; [by eauto|done].
Qed.

Definition at_end (rest : string) (g : groups) : option groups :=
  if Str.is_empty rest then Some g else None.

Lemma eml_tail_match s g :
  is_Some (rmatch false (Fnmatch.translate ".eml") at_end s g) ↔ s = ".eml".
Proof.
  simpl. unfold atom_ok.
  repeat (destruct s as [|? s]; [by split; [intros []|]|];
    match goal with
    | |- context [Ascii.eqb ?a ?b] =>
        destruct (Ascii.eqb_spec a b) as [->|?];
          [|split; [by intros []|intros [=]; done]]
    end).
  destruct s; simpl; split; try done. by intros []. 
Qed.

Lemma fnmatch_eml name :
  Fnmatch.fnmatch name "*.eml" = Str.ends_with ".eml" name.
Proof.
  unfold Fnmatch.fnmatch.
  change (Fnmatch.translate "*.eml")
    with (Seq (Star AAny) (Fnmatch.translate ".eml")).
  cbn [rmatch]. change (atom_ok false AAny) with (fun _ : ascii => true).
  fold at_end.
  assert (is_Some (star_greedy (fun _ => true)
            (fun s' => rmatch false (Fnmatch.translate ".eml") at_end s' ∅) name)
          ↔ Str.ends_with ".eml" name = true) as Hiff.
  { rewrite star_any_some, ends_with_spec. split.
    - intros (pre & rest & -> & H). exists pre. f_equal.
      by apply (eml_tail_match rest ∅).
    - intros [stem ->]. exists stem, ".eml". split; [done|].
      by apply (eml_tail_match ".eml" ∅). }
  destruct (Str.ends_with ".eml" name).
  - apply bool_decide_eq_true. by apply Hiff.
  - apply bool_decide_eq_false. intros H%Hiff. done.
Qed.

End Selection.
Section Paths.

Lemma slash_not_in_eml a b : a +:+ String "/" b ≠ ".eml".
Proof.
  do 5 (destruct a as [|? a]; [by rewrite str_app_nil_l|];
        rewrite str_app_cons; intros [= -> H]; revert H).
Qed.

Lemma ends_with_eml_after_slash a b :
  Str.ends_with ".eml" (a +:+ String "/" b) = Str.ends_with ".eml" b.
Proof.
  induction a as [|c a IH].
  - rewrite str_app_nil_l, ends_with_unfold.
    by destruct (String.eqb_spec (String "/" b) ".eml").
  - rewrite str_app_cons, ends_with_unfold.
    destruct (String.eqb_spec (String c (a +:+ String "/" b)) ".eml") as [E|_];
      [|done].
    by apply (slash_not_in_eml (String c a) b) in E.
Qed.

(** A directory entry is selected by its path exactly when its name ends
    in [.eml]. *)
Lemma path_selected dir name :
  Fnmatch.fnmatch (Os.path_join dir name) "*.eml" = Str.ends_with ".eml" name.
Proof.
  rewrite fnmatch_eml. unfold Os.path_join.
  destruct (Os.starts_with_slash name); [done|].
  destruct (Str.is_empty dir) eqn:Hempty; simpl.
  { destruct dir; [|done]. by rewrite str_app_nil_l. }
  destruct (Str.ends_with "/" dir) eqn:Hslash.
  - apply ends_with_spec in Hslash as [stem ->].
    rewrite str_app_assoc. change ("/" +:+ name) with (String "/" name).
    apply ends_with_eml_after_slash.
  - change ("/" +:+ name) with (String "/" name).
    apply ends_with_eml_after_slash.
Qed.

End Paths.

(** ** Loading a directory *)

(** The entries [load_data] parses: regular files whose name ends in
    [.eml]. *)
Definition is_eml (entry : dir_entry) : bool :=
  entry_is_file entry && Str.ends_with ".eml" (entry_name entry).

Definition selected (entries : list dir_entry) : list dir_entry :=
  filter (fun entry => is_eml entry = true) entries.

Section Load.

Lemma load_entries_run path entries : ∀ data st,
  ∃ st',
    load_entries path entries data st
    = (Ret (data ++ (record_of ∘ Os.open_r path <$> selected entries)), st') ∧
    stdout st' = stdout st ++
      ((fun entry => "Working on parsing file: " +:+ entry_name entry)
         <$> selected entries) ∧
    email_header_fields st' = email_header_fields st ∪
      ⋃ ((fun entry => list_to_set (header_names (Os.open_r path entry)))
           <$> selected entries) ∧
    disk st' = disk st ∧ io_clock st' = io_clock st.
Proof.
  induction entries as [|entry entries IH]; intros data st.
  - exists st. simpl. rewrite !app_nil_r. split_and!; try done. set_solver.
  - simpl. unfold Os.entry_path. rewrite path_selected. fold (is_eml entry).
    unfold selected. rewrite filter_cons. fold (selected entries).
    destruct (is_eml entry) eqn:Hsel.
    + rewrite decide_True by done.
      rewrite bind_run. unfold print, modify. rewrite bind_run, parse_header_run.
      match goal with
      | |- context [load_entries path entries ?d ?s] =>
          destruct (IH d s) as (st' & -> & Hout & Hf & Hd & Hc)
      end.
      exists st'. simpl in *. rewrite Hout, Hf, Hd, Hc.
      rewrite <-!(assoc_L (++)).
      split_and!; try done. by rewrite (assoc_L (∪)).
    + rewrite decide_False by done. apply IH.
Qed.

End Load.
Section Run.

Lemma csv_columns_set (X : gset string) :
  (list_to_set (csv_columns_of X) : gset string)
  = X ∪ list_to_set user_defined_fields.
Proof.
  unfold csv_columns_of. rewrite list_to_set_app_L. f_equal.
  apply set_eq. intros x.
  by rewrite elem_of_list_to_set, elem_of_sorted_elements.
Qed.

Lemma loaded_records_fit path entries (X : gset string) :
  Forall (fun rec : record =>
            dom rec ⊆ list_to_set
              (csv_columns_of
                 (X ∪ ⋃ ((fun entry =>
                            list_to_set (header_names (Os.open_r path entry)))
                         <$> entries))))
         (record_of ∘ Os.open_r path <$> entries).
Proof.
  apply Forall_fmap, Forall_forall. intros entry Hin. simpl.
  rewrite record_of_dom, csv_columns_set.
  apply union_mono_r. intros x Hx. apply elem_of_union_r.
  apply elem_of_union_list.
  exists (list_to_set (header_names (Os.open_r path entry))).
  split; [|done]. apply list_elem_of_fmap. by exists entry.
Qed.

Lemma load_data_run e dir entries st :
  fs e !! dir = Some (Directory entries) →
  load_data e dir st = load_entries dir entries [] st.
Proof.
  intros Hdir. unfold load_data, Os.scandir. by rewrite Hdir.
Qed.

Lemma path_exists_true e dir n :
  fs e !! dir = Some n → Os.path_exists e dir = true.
Proof. intros H. apply bool_decide_eq_true. by exists n. Qed.

Definition processed_line (n : nat) : string :=
  "Processed " +:+ pretty n +:+ " files".

(** The run of [main] on a directory, up to the call of
    [write_data_to_file]. *)
Lemma main_run e prog dir out entries :
  fs e !! dir = Some (Directory entries) →
  ∃ st1,
    load_data e dir initial_state
      = (Ret (record_of ∘ Os.open_r dir <$> selected entries), st1) ∧
    email_header_fields st1
      = ⋃ ((fun entry => list_to_set (header_names (Os.open_r dir entry)))
           <$> selected entries) ∧
    stdout st1
      = (fun entry => "Working on parsing file: " +:+ entry_name entry)
        <$> selected entries ∧
    io_clock st1 = 0 ∧ disk st1 = ∅ ∧
    ∀ st1', print (processed_line (length (selected entries))) st1
            = (Ret (), st1') →
    main e [prog; dir; out] initial_state
    = match write_data_to_file e
              (record_of ∘ Os.open_r dir <$> selected entries) out st1' with
      | (Ret true, st2) => print "CSV file successfully written!" st2
      | (Ret false, st2) => (Ret (), st2)
      | (Raise err, st2) => (Raise err, st2)
      end.
Proof.
  intros Hdir.
  destruct (load_entries_run dir entries [] initial_state)
    as (st1 & Hrun & Hout & Hf & Hd & Hc).
  exists st1. rewrite (load_data_run _ _ entries) by done.
  simpl in *. rewrite (left_id_L ∅ (∪)) in Hf.
  split_and!; try done.
  intros st1' Hprint. unfold main.
  rewrite (path_exists_true _ _ _ Hdir).
  change (negb true) with false. cbv iota.
  rewrite bind_run, (load_data_run _ _ entries), Hrun by done.
  rewrite bind_run. rewrite length_fmap. fold (processed_line (length (selected entries))).
  rewrite Hprint. rewrite bind_run.
  destruct (write_data_to_file _ _ _ _) as [[[]|] ?]; done.
Qed.

End Run.
(** * The claims *)

(** Closes a decidable goal on concrete data by evaluation. *)
Ltac decide_closed :=
  apply (bool_decide_unpack _); vm_compute; exact I.

(** ** C9 *)

(** The schema set after [load_entries]: what it was, joined with the
    header names of the selected files. *)
Lemma load_entries_fields path entries data st :
  email_header_fields (load_entries path entries data st).2
  = email_header_fields st ∪
    ⋃ ((fun entry => list_to_set (header_names (Os.open_r path entry)))
         <$> selected entries).
Proof.
  destruct (load_entries_run path entries data st) as (st' & -> & _ & Hf & _).
  done.
Qed.

Lemma selected_Permutation entries entries' :
  entries ≡ₚ entries' → selected entries ≡ₚ selected entries'.
Proof. intros H. unfold selected. by rewrite H. Qed.

Lemma union_list_Permutation (Xs Ys : list (gset string)) :
  Xs ≡ₚ Ys → ⋃ Xs = ⋃ Ys.
Proof.
  induction 1 as [|X Xs Ys _ IH|X Y Xs|Xs Ys Zs _ IH1 _ IH2]; simpl.
  - done.
  - by rewrite IH.
  - set_solver.
  - by rewrite IH1.
Qed.

(** C9: [add_email_header_tracker] always returns [True] and leaves the
    schema set equal to the union of its previous value and the given
    names, touching nothing else.  Hence the set only grows, adding names
    that are already present (in particular adding the same names twice)
    changes nothing, two additions commute, and the set reached by
    [load_entries] is the same for every order of the directory entries. *)
Theorem schema_set_union (header_f : gset string) (st : state) :
  let st' := (add_email_header_tracker header_f st).2 in
  (add_email_header_tracker header_f st).1 = Ret true ∧
  email_header_fields st' = email_header_fields st ∪ header_f ∧
  stdout st' = stdout st ∧ disk st' = disk st ∧
  email_header_fields st ⊆ email_header_fields st' ∧
  (header_f ⊆ email_header_fields st →
   email_header_fields st' = email_header_fields st) ∧
  email_header_fields (add_email_header_tracker header_f st').2
    = email_header_fields st' ∧
  (∀ other : gset string,
     email_header_fields
       (add_email_header_tracker other (add_email_header_tracker header_f st).2).2
     = email_header_fields
       (add_email_header_tracker header_f (add_email_header_tracker other st).2).2) ∧
  (∀ path entries entries' data data',
     entries ≡ₚ entries' →
     email_header_fields (load_entries path entries data st).2
     = email_header_fields (load_entries path entries' data' st).2).
Proof.
  intros st'. subst st'.
  repeat (rewrite add_email_header_tracker_run; cbn [fst snd]).
  split_and!; try done.
  - simpl. set_solver.
  - simpl. intros Hsub. set_solver.
  - simpl. set_solver.
  - intros other.
    repeat (rewrite add_email_header_tracker_run; cbn [fst snd]).
    simpl. set_solver.
  - intros path entries entries' data data' Hperm.
    rewrite !load_entries_fields. f_equal.
    apply union_list_Permutation. by rewrite (selected_Permutation _ _ Hperm).
Qed.

Definition sample_message (hs : list (string * string)) : message :=
  {| msg_headers := hs; msg_payload := "" |}.

Definition sample_entry (name : string) (hs : list (string * string))
    : dir_entry :=
  {| entry_name := name; entry_is_file := true;
     entry_message := sample_message hs |}.

Lemma schema_set_union_witness :
  let a := sample_entry "a.eml" [("Subject", "x")] in
  let b := sample_entry "b.eml" [("To", "y")] in
  let st := with_fields {["subject"; "to"]} initial_state in
  email_header_fields (add_email_header_tracker {["to"]} st).2
    = email_header_fields st ∧
  email_header_fields (load_entries "d" [a; b] [] st).2
    = email_header_fields (load_entries "d" [b; a] [] st).2.
Proof.
  intros a b st.
  destruct (schema_set_union {["to"]} st)
    as (_ & _ & _ & _ & _ & Hpresent & _ & _ & Horder).
  split.
  - apply Hpresent. decide_closed.
  - apply Horder. apply Permutation_swap.
Defined.
(** ** C1 *)

Definition sample_file (path : string) (hs : list (string * string))
    (payload : string) : file :=
  {| file_name := path;
     file_message := {| msg_headers := hs; msg_payload := payload |} |}.

Lemma record_of_shape f x :
  x ∈ header_names f → x ∉ derived_fields → shape_preserved f (record_of f) x.
Proof.
  intros Hx Hnot. unfold shape_preserved.
  rewrite record_of_header by done.
  destruct (header_value_shape f x Hx) as [Hone Hmany]. split.
  - intros Hlen. destruct (Hone Hlen) as (v & -> & ->). by exists v.
  - intros Hlen. by rewrite (Hmany Hlen).
Qed.

(** C1 as stated fails: a header named [Body] occurs once, yet the record
    maps [body] to the payload, not to the header's value. *)
Lemma header_shape_fails_on_derived_name :
  ¬ (∀ f st x, x ∈ header_names f →
       ∃ rec, (parse_header f st).1 = Ret rec ∧ shape_preserved f rec x).
Proof.
  intros H.
  pose (f := sample_file "mail/a.eml" [("Body", "from the header")]
               "the payload").
  destruct (H f initial_state "body") as (rec & Hrun & Hone & _);
    [decide_closed|].
  rewrite parse_header_run in Hrun. cbn [fst] in Hrun.
  apply Ret_inj in Hrun. subst rec.
  destruct Hone as (v & Hocc & Hrec); [vm_compute; reflexivity|].
  assert (record_of f !! "body" = Some (PStr "the payload")) as E
    by (vm_compute; reflexivity).
  rewrite E in Hrec. vm_compute in Hocc. congruence.
Qed.

(** C1 (amended): for every message and every header name of it other
    than [body], [username], [password] and [ip], the record returned by
    [parse_header] maps the lower-cased name to the single value when the
    name occurred once, and to the list of all its values in the order of
    the source when it occurred more than once. *)
Theorem parse_header_shape (f : file) (st : state) (x : string) :
  x ∈ header_names f →
  x ∉ derived_fields →
  ∃ rec, (parse_header f st).1 = Ret rec ∧ shape_preserved f rec x.
Proof.
  intros Hx Hnot. exists (record_of f). rewrite parse_header_run.
  split; [done|]. by apply record_of_shape.
Qed.

Lemma parse_header_shape_witness :
  let f := sample_file "mail/a.eml"
             [("Received", "first hop"); ("Subject", "hello");
              ("received", "second hop")] "text" in
  ∃ rec, (parse_header f initial_state).1 = Ret rec ∧
         rec !! "received" = Some (PList ["first hop"; "second hop"]) ∧
         rec !! "subject" = Some (PStr "hello").
Proof.
  intros f.
  destruct (parse_header_shape f initial_state "received")
    as (rec & Hrun & _ & Hmany); [decide_closed..|].
  destruct (parse_header_shape f initial_state "subject")
    as (rec' & Hrun' & Hone & _); [decide_closed..|].
  rewrite parse_header_run in Hrun, Hrun'. cbn [fst] in Hrun, Hrun'.
  apply Ret_inj in Hrun, Hrun'. subst rec rec'.
  exists (record_of f). split; [rewrite parse_header_run; reflexivity|].
  split.
  - rewrite Hmany; [|vm_compute; lia]. vm_compute. reflexivity.
  - destruct Hone as (v & Hv & Hrec); [vm_compute; reflexivity|].
    rewrite Hrec. vm_compute in Hv. congruence.
Defined.

(** ** C10 *)




(** ** C6 *)

Section HeaderRow.

(** Whatever the data rows are, [write_rows] only appends to the table. *)
Lemma write_rows_appends e out cols data : ∀ st old,
  disk st !! out = Some old →
  ∃ more, disk (write_rows e out cols data st).2 !! out = Some (old ++ more).
Proof.
  induction data as [|rec data IH]; intros st old Hold; simpl.
  - exists []. by rewrite app_nil_r.
  - rewrite bind_run. unfold Csv.writerow.
    destruct (Csv.dict_to_list cols rec) as [r|err].
    + destruct (decide (io_fault e = Some (io_clock st))) as [Hnow|Hlater].
      * destruct (write_row_fail e out r st Hnow) as (st1 & -> & _ & Hd).
        exists []. simpl. by rewrite Hd, app_nil_r.
      * destruct (write_row_ok e out r old st Hlater Hold)
          as (st1 & -> & _ & _ & Hd).
        destruct (IH st1 _ Hd) as [more Hmore].
        exists (r :: more). by rewrite Hmore, <-(assoc_L (++)).
    + exists []. simpl. by rewrite app_nil_r.
Qed.

Lemma header_row_written e data out st :
  io_fault e ≠ Some (io_clock st) →
  io_fault e ≠ Some (S (io_clock st)) →
  ∃ rows,
    disk (write_data_to_file e data out st).2 !! out
    = Some ((PStr <$> csv_columns_of (email_header_fields st)) :: rows).
Proof.
  intros Hopen Hhdr. rewrite write_data_to_file_unfold. cbv zeta.
  set (cols := csv_columns_of (email_header_fields st)).
  rewrite bind_run, open_w_ok by done.
  rewrite bind_run, writeheader_run.
  destruct (write_row_ok e out (PStr <$> cols) [] (Os.set_table out [] (Os.tick st)))
    as (st1 & -> & _ & _ & Hd1); [done|apply lookup_insert_eq|].
  rewrite bind_run.
  destruct (write_rows_appends e out cols data st1 _ Hd1) as [more Hmore].
  exists more.
  destruct (write_rows e out cols data st1) as [[[]|err] st2]; simpl in Hmore.
  - rewrite bind_run. unfold Os.close, Os.io_op.
    case_decide; simpl; by rewrite Hmore.
  - destruct err; simpl; by rewrite Hmore.
Qed.

End HeaderRow.

(** C6: the columns computed by [write_data_to_file] are the observed
    header names, each once and in ascending lexicographic order, followed
    by [body], [username], [password], [ip], [source-email-file] in this
    order; and once the output file is open and its first row written,
    that first row is these columns, whatever the records are. *)
Theorem csv_column_order (e : env) (data_list : list record)
    (output_file : string) (st : state) :
  io_fault e ≠ Some (io_clock st) →
  io_fault e ≠ Some (S (io_clock st)) →
  let fields := email_header_fields st in
  ∃ names rows,
    csv_columns_of fields
      = names ++ ["body"; "username"; "password"; "ip"; "source-email-file"] ∧
    Sorted String.le names ∧ NoDup names ∧
    (∀ x, x ∈ names ↔ x ∈ fields) ∧
    disk (write_data_to_file e data_list output_file st).2 !! output_file
      = Some ((PStr <$> csv_columns_of fields) :: rows).
Proof.
  intros Hopen Hhdr fields.
  destruct (header_row_written e data_list output_file st Hopen Hhdr)
    as [rows Hrows].
  exists (sorted (elements fields)), rows. split_and!.
  - done.
  - apply sorted_Sorted.
  - apply sorted_elements_NoDup.
  - apply elem_of_sorted_elements.
  - done.
Qed.

Lemma csv_column_order_witness :
  let e := {| fs := ∅; io_fault := Some 2 |} in
  let st := with_fields {["to"; "subject"; "from"]} initial_state in
  ∃ rows,
    disk (write_data_to_file e [∅; ∅] "out.csv" st).2 !! "out.csv"
    = Some ((PStr <$> ["from"; "subject"; "to"; "body"; "username";
                       "password"; "ip"; "source-email-file"]) :: rows).
Proof.
  intros e st.
  destruct (csv_column_order e [∅; ∅] "out.csv" st)
    as (names & rows & Hcols & _ & _ & _ & Hrow);
    [vm_compute; intros [=]..|].
  exists rows. rewrite Hrow. vm_compute. reflexivity.
Defined.
(** ** C7 *)

(** C7: for a directory, [load_data] returns as many records as the
    directory has regular files whose name ends in [.eml], whatever the
    entries contain; and when there is none and no output operation
    fails, [main] prints [Processed 0 files], writes a table holding the
    header row only, and ends without an error. *)
Theorem load_data_count (e : env) (dir : string) (entries : list dir_entry)
    (st : state) :
  fs e !! dir = Some (Directory entries) →
  (∃ data st', load_data e dir st = (Ret data, st') ∧
     length data
     = length (filter (fun entry =>
                 entry_is_file entry = true ∧
                 Str.ends_with ".eml" (entry_name entry) = true) entries)) ∧
  (selected entries = [] → io_fault e = None →
   ∀ prog out, ∃ st',
     main e [prog; dir; out] initial_state = (Ret (), st') ∧
     stdout st' = ["Processed 0 files"; "CSV file successfully written!"] ∧
     disk st' !! out = Some [PStr <$> user_defined_fields]).
Proof.
  intros Hdir. split.
  - destruct (load_entries_run dir entries [] st) as (st' & Hrun & _).
    exists (record_of ∘ Os.open_r dir <$> selected entries), st'.
    rewrite (load_data_run _ _ entries) by done. split; [done|].
    rewrite length_fmap. unfold selected, is_eml. f_equal.
    apply list_filter_iff. intros entry. by rewrite andb_true_iff.
  - intros Hnone Hio prog out.
    destruct (main_run e prog dir out entries Hdir)
      as (st1 & _ & Hf & Hout & Hc & Hd & Hmain).
    rewrite Hnone in *. simpl in Hf, Hout.
    rewrite (Hmain _ eq_refl). clear Hmain.
    match goal with
    | |- context [write_data_to_file e ?d out ?s] =>
        destruct (write_data_to_file_ok e d out s)
          as (st2 & -> & [Hout2 Hf2] & Hd2)
    end.
    { apply Forall_nil_2. }
    { intros (k & Hk & _). by rewrite Hio in Hk. }
    simpl in Hout2, Hf2, Hd2. rewrite Hf in Hd2. rewrite Hout in Hout2.
    eexists. split; [reflexivity|]. simpl. rewrite Hout2. split; [done|].
    rewrite Hd2. reflexivity.
Qed.

Lemma load_data_count_witness :
  let mixed := [sample_entry "a.eml" [("Subject", "x")];
                sample_entry "notes.txt" [];
                sample_entry "b.eml" []] in
  let e := {| fs := {["mail" := Directory mixed]}; io_fault := None |} in
  let e0 := {| fs := {["empty" := Directory [sample_entry "notes.txt" []]]};
               io_fault := None |} in
  (∃ data st', load_data e "mail" initial_state = (Ret data, st') ∧
               length data = 2) ∧
  (∃ st', main e0 ["prog"; "empty"; "out.csv"] initial_state = (Ret (), st') ∧
          disk st' !! "out.csv" = Some [PStr <$> user_defined_fields]).
Proof.
  intros mixed e e0. split.
  - destruct (load_data_count e "mail" mixed initial_state)
      as [(data & st' & Hrun & Hlen) _]; [vm_compute; reflexivity|].
    exists data, st'. split; [exact Hrun|]. rewrite Hlen.
    vm_compute. reflexivity.
  - destruct (load_data_count e0 "empty" [sample_entry "notes.txt" []]
                initial_state) as [_ Hzero]; [vm_compute; reflexivity|].
    destruct (Hzero ltac:(vm_compute; reflexivity) eq_refl "prog" "out.csv")
      as (st' & Hrun & _ & Hd).
    exists st'. split; [exact Hrun|exact Hd].
Defined.
(** ** C8 *)

(** C8: on a directory, [main] first reports the number of files it
    loaded; [write_data_to_file] then returns [True] exactly when none of
    its output operations (open, header row, one row per record, close)
    fails, and otherwise prints [I/O Error!] and returns [False]; the
    success message is printed in the first case only. *)
Theorem write_status (e : env) (prog dir out : string)
    (entries : list dir_entry) :
  fs e !! dir = Some (Directory entries) →
  let n := length (selected entries) in
  let failed := io_fails_in e 0 (n + 3) in
  ∃ data st1 st1' ok st2 st3,
    load_data e dir initial_state = (Ret data, st1) ∧
    length data = n ∧
    print (processed_line n) st1 = (Ret (), st1') ∧
    write_data_to_file e data out st1' = (Ret ok, st2) ∧
    (ok = true ↔ ¬ failed) ∧
    (failed → stdout st2 = stdout st1' ++ ["I/O Error!"]) ∧
    main e [prog; dir; out] initial_state = (Ret (), st3) ∧
    stdout st3
    = stdout st1 ++ [processed_line n] ++
      [if decide failed then "I/O Error!"
       else "CSV file successfully written!"].
Proof.
  intros Hdir n failed.
  destruct (main_run e prog dir out entries Hdir)
    as (st1 & Hload & Hf & Hout & Hc & Hd & Hmain).
  specialize (Hmain _ eq_refl). fold n in Hmain.
  set (data := record_of ∘ Os.open_r dir <$> selected entries) in *.
  set (st1' := {| email_header_fields := email_header_fields st1;
                  stdout := stdout st1 ++ [processed_line n];
                  disk := disk st1; io_clock := io_clock st1 |}) in *.
  assert (Forall (fun rec : record =>
            dom rec ⊆ list_to_set (csv_columns_of (email_header_fields st1')))
            data) as Hfit.
  { simpl. rewrite Hf. rewrite <-(left_id_L ∅ (∪) (⋃ _)).
    apply loaded_records_fit. }
  assert (length data = n) as Hlen by apply length_fmap.
  destruct (decide failed) as [Hfail|Hfine].
  - destruct (write_data_to_file_fail e data out st1' Hfit)
      as (st2 & Hw & Hout2 & _).
    { simpl. by rewrite Hc, Hlen. }
    rewrite Hw in Hmain.
    exists data, st1, st1', false, st2, st2. split_and!; try done.
    rewrite Hout2. simpl. by rewrite <-(assoc_L (++)).
  - destruct (write_data_to_file_ok e data out st1' Hfit)
      as (st2 & Hw & [Hout2 _] & _).
    { simpl. by rewrite Hc, Hlen. }
    rewrite Hw in Hmain.
    eexists data, st1, st1', true, st2, _. split_and!; try done.
    simpl. rewrite Hout2. simpl. by rewrite <-(assoc_L (++)).
Qed.

Lemma write_status_witness :
  let entries := [sample_entry "a.eml" [("Subject", "x")]] in
  let e := {| fs := {["mail" := Directory entries]}; io_fault := Some 2 |} in
  ∃ st3, main e ["prog"; "mail"; "out.csv"] initial_state = (Ret (), st3) ∧
         stdout st3 = ["Working on parsing file: a.eml"; "Processed 1 files";
                       "I/O Error!"].
Proof.
  intros entries e.
  destruct (write_status e "prog" "mail" "out.csv" entries)
    as (data & st1 & st1' & ok & st2 & st3 & Hload & _ & _ & _ & _ & _ &
        Hmain & Hout); [vm_compute; reflexivity|].
  exists st3. split; [exact Hmain|]. rewrite Hout.
  replace st1 with (load_data e "mail" initial_state).2
    by (rewrite Hload; reflexivity).
  vm_compute. reflexivity.
Defined.

(** ** C2 *)

Definition regular_file_env : env :=
  {| fs := {["notes.txt" := RegularFile]}; io_fault := None |}.

(** C2 (evaluation at the failing input): when the first argument names
    an existing regular file, [main] passes the existence test, calls
    [load_data], and ends with an uncaught [NotADirectoryError] instead of
    the exit message [Argument provided is not a directory.] *)
Theorem main_on_regular_file :
  Os.path_exists regular_file_env "notes.txt" = true ∧
  main regular_file_env ["email_header_parser.py"; "notes.txt"; "out.csv"]
    initial_state
  = (Raise NotADirectoryError, initial_state) ∧
  main regular_file_env ["email_header_parser.py"; "missing"; "out.csv"]
    initial_state
  = (Raise (SystemExit "Argument provided is not a directory."), initial_state).
Proof. split_and!; reflexivity. Qed.
(** ** Facts on the matcher *)

(** The first suffix of a string, from the left, on which [h] answers. *)
Fixpoint first_match {A} (h : string → option A) (s : string) : option A :=
  match h s with
  | Some r => Some r
  | None =>
      match s with
      | "" => None
      | String _ s' => first_match h s'
      end
  end.

Section MatcherFacts.
Import Re.

Lemma first_match_unfold {A} (h : string → option A) s :
  first_match h s
  = match h s with
    | Some r => Some r
    | None => match s with "" => None | String _ s' => first_match h s' end
    end.
Proof. by destruct s. Qed.

Lemma first_match_ext {A} (h h' : string → option A) s :
  (∀ t, h t = h' t) → first_match h s = first_match h' s.
Proof.
  intros E. induction s as [|c s IH]; simpl; rewrite E; [done|].
  by rewrite IH.
Qed.

Lemma first_match_fmap {A B} (f : A → B) (h : string → option A) s :
  f <$> first_match h s = first_match (fun t => f <$> h t) s.
Proof.
  induction s as [|c s IH]; simpl; destruct (h _); simpl; done.
Qed.

(** The answer at the leftmost position where there is one. *)
Lemma first_match_at {A} (h : string → option A) pre : ∀ body s r,
  body = pre +:+ s →
  h s = Some r →
  (∀ pre' s', body = pre' +:+ s' → String.length pre' < String.length pre →
              h s' = None) →
  first_match h body = Some r.
Proof.
  induction pre as [|c pre IH]; intros body s r -> Hs Hmin.
  - rewrite str_app_nil_l, first_match_unfold. by rewrite Hs.
  - rewrite str_app_cons, first_match_unfold.
    rewrite (Hmin "" (String c (pre +:+ s))); [|done|simpl; lia].
    apply (IH _ s); [done..|].
    intros pre' s' E Hlen. apply (Hmin (String c pre') s').
    + by rewrite str_app_cons, E.
    + simpl. lia.
Qed.

Lemma first_match_none {A} (h : string → option A) body :
  (∀ pre s, body = pre +:+ s → h s = None) → first_match h body = None.
Proof.
  induction body as [|c body IH]; intros Hnone; rewrite first_match_unfold.
  - by rewrite (Hnone "" "").
  - rewrite (Hnone "" (String c body)) by done.
    apply IH. intros pre s ->. by apply (Hnone (String c pre)).
Qed.

Lemma first_match_some {A} (h : string → option A) body r :
  first_match h body = Some r → ∃ pre s, body = pre +:+ s ∧ h s = Some r.
Proof.
  induction body as [|c body IH]; rewrite first_match_unfold.
  - destruct (h "") eqn:E; [|done]. intros [= ->]. by exists "", "".
  - destruct (h (String c body)) eqn:E.
    + intros [= ->]. by exists "", (String c body).
    + intros (pre & s & -> & Hs)%IH. by exists (String c pre), s.
Qed.

Lemma search_first_match ic r s :
  search ic r s
  = first_match
      (fun t => rmatch ic r (fun t' g => Some (<[0 := consumed t t']> g)) t ∅) s.
Proof. induction s as [|c s IH]; simpl; [done|]. by rewrite IH. Qed.

Lemma star_greedy_skip {R} (p : ascii → bool) (k : string → option R) s :
  (∀ c s', p c = true → k (String c s') = None) →
  star_greedy p k s = k (Str.drop_while p s).
Proof.
  intros Hk. induction s as [|c s IH]; simpl; [done|].
  destruct (p c) eqn:Hc; [|done]. rewrite IH.
  destruct (k (Str.drop_while p s)); [done|]. by apply Hk.
Qed.

Lemma star_greedy_total {R} (p : ascii → bool) (k : string → option R) s :
  is_Some (k (Str.drop_while p s)) →
  star_greedy p k s = k (Str.drop_while p s).
Proof.
  induction s as [|c s IH]; simpl; [done|].
  destruct (p c) eqn:Hc; [|done]. intros H. rewrite IH by done.
  by destruct H as [r ->].
Qed.

Lemma repeat_greedy_skip {R} (p : ascii → bool) (k : string → option R) hi :
  (∀ c s', p c = true → k (String c s') = None) →
  ∀ lo s,
    repeat_greedy p lo hi k s
    = let n := String.length (Str.take_while p s) in
      if (lo <=? n) && (n <=? hi) then k (Str.drop_while p s) else None.
Proof.
  intros Hk. induction hi as [|hi IH]; intros lo s.
  - destruct s as [|c s]; simpl.
    + by destruct lo.
    + destruct (p c) eqn:Hc; simpl.
      * rewrite andb_false_r. destruct lo; simpl; [by apply Hk|done].
      * by destruct lo.
  - destruct s as [|c s]; simpl.
    + by destruct lo.
    + destruct (p c) eqn:Hc; simpl.
      * rewrite IH. cbv zeta.
        destruct lo as [|lo]; simpl.
        -- destruct (_ <=? hi); simpl; [|by apply Hk].
           destruct (k (Str.drop_while p s)); [done|]. by apply Hk.
        -- destruct (_ && _); [|done]. by destruct (k _).
      * by destruct lo.
Qed.

Lemma repeat_greedy_total {R} (p : ascii → bool) (k : string → option R) hi :
  (∀ s', is_Some (k s')) →
  ∀ lo s,
    repeat_greedy p lo hi k s
    = let n := Nat.min hi (String.length (Str.take_while p s)) in
      if lo <=? n then k (Str.drop n s) else None.
Proof.
  intros Hk. induction hi as [|hi IH]; intros lo s.
  - simpl. by destruct lo.
  - destruct s as [|c s]; simpl.
    + by destruct lo.
    + destruct (p c) eqn:Hc; simpl.
      * rewrite IH. cbv zeta.
        destruct lo as [|lo]; simpl.
        -- by destruct (Hk (Str.drop (Nat.min hi (String.length (Str.take_while p s))) s)) as [r ->].
        -- destruct (lo <=? _); [|done]. by destruct (k _).
      * by destruct lo.
Qed.

End MatcherFacts.
(** ** Keyword patterns *)

Module Keyword.
Import Re.

(** A word of literals, as [ReParse.compile] builds it. *)
Fixpoint word (w : string) : regex :=
  match w with
  | "" => Empty
  | String c w' =>
      match w' with
      | "" => Atom (ALit c)
      | _ => Seq (Atom (ALit c)) (word w')
      end
  end.

Fixpoint any_word (w : string) (ws : list string) : regex :=
  match ws with
  | [] => word w
  | w' :: ws' => Alt (word w) (any_word w' ws')
  end.

(** An alternation of keywords in group 1, then blanks, a colon and, in
    group 2, the rest of the line. *)
Definition pattern (w : string) (ws : list string) : regex :=
  Seq (Group 1 (any_word w ws))
      (Seq (Star (ALit " ")) (Seq (Atom (ALit ":")) (Group 2 (Star ADot)))).

(** [s] without a leading [w], the case of letters ignored. *)
Fixpoint after_word (w s : string) : option string :=
  match w with
  | "" => Some s
  | String l w' =>
      match s with
      | String c s' =>
          if Ascii.eqb (Chars.lower c) (Chars.lower l) then after_word w' s'
          else None
      | "" => None
      end
  end.

Definition is_blank (c : ascii) : bool := Ascii.eqb c " ".

(** [s] without leading blanks and the colon that follows them. *)
Definition after_colon (s : string) : option string :=
  match Str.drop_while is_blank s with
  | String c rest => if Ascii.eqb c ":" then Some rest else None
  | "" => None
  end.

Definition label_here (w s : string) : option string :=
  after_word w s ≫= after_colon.

(** What follows the label at the start of [s], for the first keyword, in
    the order of the list, that labels it. *)
Fixpoint labelled_here (keywords : list string) (s : string) : option string :=
  match keywords with
  | [] => None
  | w :: ws =>
      match label_here w s with
      | Some rest => Some rest
      | None => labelled_here ws s
      end
  end.

Definition not_newline (c : ascii) : bool := negb (Ascii.eqb c Chars.newline).

(** The text up to the end of the line. *)
Definition line (s : string) : string := Str.take_while not_newline s.

End Keyword.

Section KeywordFacts.
Import Re Keyword.

Lemma atom_blank c : atom_ok true (ALit " ") c = is_blank c.
Proof. by destruct c as [[] [] [] [] [] [] [] []]. Qed.

Lemma atom_colon c : atom_ok true (ALit ":") c = Ascii.eqb c ":".
Proof. by destruct c as [[] [] [] [] [] [] [] []]. Qed.

Lemma atom_period c : atom_ok true (ALit ".") c = Ascii.eqb c ".".
Proof. by destruct c as [[] [] [] [] [] [] [] []]. Qed.

Lemma rmatch_word w : ∀ k s g,
  rmatch true (word w) k s g
  = match after_word w s with
    | Some t => k t g
    | None => None
    end.
Proof.
  induction w as [|l w IH]; intros k s g; [done|].
  destruct w as [|l' w].
  - simpl. destruct s as [|c s]; [done|]. by destruct (Ascii.eqb _ _).
  - change (word (String l (String l' w)))
      with (Seq (Atom (ALit l)) (word (String l' w))).
    cbn [rmatch]. destruct s as [|c s]; [done|].
    cbn [after_word atom_ok]. destruct (Ascii.eqb _ _); [|done]. apply IH.
Qed.

Lemma consumed_drop_while p s :
  consumed s (Str.drop_while p s) = Str.take_while p s.
Proof.
  unfold consumed.
  assert (∀ t, String.length (Str.drop_while p t) ≤ String.length t) as Hle.
  { induction t as [|c t IH]; simpl; [done|]. destruct (p c); simpl; lia. }
  induction s as [|c s IH]; simpl; [done|].
  destruct (p c) eqn:Hc; simpl.
  - specialize (Hle s).
    replace (S (String.length s) - String.length (Str.drop_while p s))
      with (S (String.length s - String.length (Str.drop_while p s))) by lia.
    simpl. by rewrite IH.
  - by rewrite Nat.sub_diag.
Qed.

(** The part of a keyword pattern after the keyword: blanks, a colon and
    the rest of the line, which becomes group 2. *)
Lemma rmatch_colon_line (k : string → groups → option groups) t g :
  (∀ t' g', is_Some (k t' g')) →
  rmatch true
    (Seq (Star (ALit " ")) (Seq (Atom (ALit ":")) (Group 2 (Star ADot))))
    k t g
  = match after_colon t with
    | Some rest =>
        k (Str.drop_while not_newline rest) (<[2 := line rest]> g)
    | None => None
    end.
Proof.
  intros Hk. cbn [rmatch]. rewrite star_greedy_skip.
  - unfold after_colon.
    assert (∀ s, Str.drop_while (atom_ok true (ALit " ")) s
                 = Str.drop_while is_blank s) as ->.
    { induction s as [|c s IH]; simpl; [done|].
      rewrite <-(atom_blank c). simpl. by rewrite IH. }
    destruct (Str.drop_while is_blank t) as [|c rest]; [done|].
    rewrite atom_colon. destruct (Ascii.eqb c ":"); [|done].
    change (atom_ok true ADot) with not_newline.
    rewrite star_greedy_total; rewrite consumed_drop_while; [done|apply Hk].
  - intros c s' Hc. rewrite atom_blank in Hc. unfold is_blank in Hc.
    apply Ascii.eqb_eq in Hc as ->. done.
Qed.

Lemma keyword_match w ws s :
  (fun m => group m 2)
    <$> rmatch true (pattern w ws)
          (fun t' g => Some (<[0 := consumed s t']> g)) s ∅
  = line <$> labelled_here (w :: ws) s.
Proof.
  unfold pattern. cbn [rmatch].
  set (k := fun (t : string) (g : groups) =>
         rmatch true
           (Seq (Star (ALit " ")) (Seq (Atom (ALit ":")) (Group 2 (Star ADot))))
           (fun t' g0 => Some (<[0 := consumed s t']> g0)) t
           (<[1 := consumed s t]> g)).
  change (rmatch true (any_word w ws) _ s ∅)
    with (rmatch true (any_word w ws) k s ∅).
  assert (∀ t g, (fun m => group m 2) <$> k t g = line <$> after_colon t)
    as Hk.
  { intros t g. unfold k. rewrite rmatch_colon_line by eauto.
    destruct (after_colon t) as [rest|]; [|done]. simpl. f_equal.
    unfold group. by rewrite lookup_insert_ne, lookup_insert_eq by done. }
  clearbody k. revert w. induction ws as [|w' ws IH]; intros w.
  - cbn [any_word labelled_here]. rewrite rmatch_word. unfold label_here.
    destruct (after_word w s) as [t|]; simpl; [|done].
    rewrite Hk. by destruct (after_colon t).
  - cbn [any_word rmatch]. rewrite rmatch_word.
    change (labelled_here (w :: w' :: ws) s)
      with (match label_here w s with
            | Some rest => Some rest
            | None => labelled_here (w' :: ws) s
            end).
    unfold label_here at 1.
    destruct (after_word w s) as [t|]; simpl; [|apply IH].
    specialize (Hk t ∅).
    destruct (k t ∅) as [m|], (after_colon t) as [rest|]; simpl in Hk |- *.
    + done.
    + discriminate Hk.
    + discriminate Hk.
    + apply IH.
Qed.

Lemma compile_user_pattern :
  ReParse.compile user_pattern = Some (pattern "username" ["email"]).
Proof. reflexivity. Qed.

Lemma compile_pwd_pattern :
  ReParse.compile pwd_pattern
  = Some (pattern "email password" ["password"; "pass"; "pd"; "ps"]).
Proof. reflexivity. Qed.

End KeywordFacts.
(** ** Labelled lines, in the words of the specification *)

Fixpoint blanks (n : nat) : string :=
  match n with
  | 0 => ""
  | S n' => String " " (blanks n')
  end.

(** [s] starts with the keyword [w] in any letter case, then blanks, then
    a colon; [rest] is what follows the colon. *)
Definition labelled_by (w s rest : string) : Prop :=
  ∃ w' n, Str.lower w' = Str.lower w ∧ s = w' +:+ blanks n +:+ ":" +:+ rest.

Definition labelled (keywords : list string) (s rest : string) : Prop :=
  ∃ w, w ∈ keywords ∧ labelled_by w s rest.

(** [rest] follows the label at the first position of [body] that carries
    one. *)
Definition first_labelled (keywords : list string) (body rest : string)
    : Prop :=
  ∃ pre s, body = pre +:+ s ∧ labelled keywords s rest ∧
    ∀ pre' s' rest', body = pre' +:+ s' → labelled keywords s' rest' →
                     String.length pre ≤ String.length pre'.

Definition user_keywords : list string := ["username"; "email"].
Definition pwd_keywords : list string :=
  ["email password"; "password"; "pass"; "pd"; "ps"].

(** Whether two keywords can label the same text: one continues the
    other with a character that a blank or a colon matches. *)
Fixpoint clash (w1 w2 : string) : bool :=
  match w1, w2 with
  | "", "" => true
  | "", String c _ | String c _, "" =>
      Ascii.eqb (Chars.lower c) " " || Ascii.eqb (Chars.lower c) ":"
  | String c1 w1', String c2 w2' =>
      Ascii.eqb (Chars.lower c1) (Chars.lower c2) && clash w1' w2'
  end.

Definition distinct_labels (keywords : list string) : Prop :=
  ∀ w1 w2, w1 ∈ keywords → w2 ∈ keywords → w1 = w2 ∨ clash w1 w2 = false.

Section Labels.
Import Keyword.

Lemma after_word_spec w : ∀ s t,
  after_word w s = Some t ↔ ∃ w', Str.lower w' = Str.lower w ∧ s = w' +:+ t.
Proof.
  induction w as [|l w IH]; intros s t; simpl.
  - split.
    + intros [= ->]. by exists "".
    + intros ([|c w'] & Hl & ->); [done|discriminate Hl].
  - destruct s as [|c s].
    + split; [done|]. intros ([|c w'] & Hl & Hs); discriminate.
    + destruct (Ascii.eqb_spec (Chars.lower c) (Chars.lower l)) as [E|E].
      * rewrite IH. split.
        -- intros (w' & Hl & ->). exists (String c w'). simpl.
           by rewrite E, Hl.
        -- intros ([|c' w'] & Hl & Hs); [discriminate Hl|].
           rewrite str_app_cons in Hs. simpl in Hl. simplify_eq.
           by exists w'.
      * split; [done|]. intros ([|c' w'] & Hl & Hs); [discriminate Hl|].
        rewrite str_app_cons in Hs. simpl in Hl. simplify_eq.
Qed.

Lemma drop_while_blanks n rest :
  Str.drop_while is_blank (blanks n +:+ String ":" rest) = String ":" rest.
Proof.
  induction n as [|n IH]; [done|].
  change (blanks (S n)) with (String " " (blanks n)).
  rewrite str_app_cons. simpl. exact IH.
Qed.

Lemma drop_while_blank_split s :
  ∃ n, s = blanks n +:+ Str.drop_while is_blank s.
Proof.
  induction s as [|c s [n IH]]; [by exists 0|]. simpl.
  destruct (is_blank c) eqn:Hc.
  - exists (S n). apply Ascii.eqb_eq in Hc as ->. simpl.
    by rewrite str_app_cons, <-IH.
  - by exists 0.
Qed.

Lemma after_colon_spec t rest :
  after_colon t = Some rest ↔ ∃ n, t = blanks n +:+ ":" +:+ rest.
Proof.
  unfold after_colon. split.
  - destruct (drop_while_blank_split t) as [n Hn].
    destruct (Str.drop_while is_blank t) as [|c r]; [done|].
    destruct (Ascii.eqb_spec c ":") as [->|]; [|done].
    intros [= ->]. by exists n.
  - intros [n ->]. change (":" +:+ rest) with (String ":" rest).
    by rewrite drop_while_blanks.
Qed.

Lemma lower_length s : String.length (Str.lower s) = String.length s.
Proof. induction s; simpl; congruence. Qed.

Lemma app_inv_length a b a' b' :
  a +:+ b = a' +:+ b' → String.length a = String.length a' → a = a' ∧ b = b'.
Proof.
  revert a'. induction a as [|c a IH]; intros [|c' a'] E Hlen;
    try discriminate Hlen; [done|].
  rewrite !str_app_cons in E. injection E as -> E. simpl in Hlen.
  destruct (IH a' E) as [-> ->]; [lia|done].
Qed.

Lemma label_here_spec w s rest :
  label_here w s = Some rest ↔ labelled_by w s rest.
Proof.
  unfold label_here, labelled_by. split.
  - destruct (after_word w s) as [t|] eqn:Ew; [|done]. simpl.
    apply after_word_spec in Ew as (w' & Hl & ->).
    intros [n ->]%after_colon_spec. by exists w', n.
  - intros (w' & n & Hl & ->).
    assert (after_word w (w' +:+ blanks n +:+ ":" +:+ rest)
            = Some (blanks n +:+ ":" +:+ rest)) as ->.
    { apply after_word_spec. by exists w'. }
    simpl. apply after_colon_spec. by exists n.
Qed.

Lemma labelled_here_sound keywords s rest :
  labelled_here keywords s = Some rest → labelled keywords s rest.
Proof.
  induction keywords as [|w ws IH]; simpl; [done|].
  destruct (label_here w s) as [r|] eqn:E.
  - intros [= ->]. exists w. split; [left|]. by apply label_here_spec.
  - intros (w' & Hin & Hl)%IH. exists w'. split; [by right|done].
Qed.

Lemma lower_of_blank_or_colon a :
  a = " "%char ∨ a = ":"%char → Chars.lower a = a.
Proof. by intros [->| ->]. Qed.

Lemma after_colon_head a s rest :
  after_colon (String a s) = Some rest → a = " "%char ∨ a = ":"%char.
Proof.
  unfold after_colon. simpl. destruct (is_blank a) eqn:Hb.
  - apply Ascii.eqb_eq in Hb. by left.
  - destruct (Ascii.eqb_spec a ":"); [by right|done].
Qed.

Lemma clash_sym w1 : ∀ w2, clash w1 w2 = clash w2 w1.
Proof.
  induction w1 as [|c1 w1 IH]; intros [|c2 w2]; simpl; try done.
  by rewrite IH, Ascii.eqb_sym.
Qed.

(** Two keywords that do not clash never label the same text. *)
Lemma no_clash w1 : ∀ w2 s r1 r2,
  clash w1 w2 = false →
  label_here w1 s = Some r1 → label_here w2 s = Some r2 → False.
Proof.
  unfold label_here.
  induction w1 as [|c1 w1 IH]; intros [|c2 w2] s r1 r2 Hc H1 H2.
  - discriminate Hc.
  - simpl in H1, H2, Hc. destruct s as [|a s]; [done|].
    destruct (Ascii.eqb_spec (Chars.lower a) (Chars.lower c2)) as [E|];
      [|done].
    apply after_colon_head in H1.
    rewrite <-E, (lower_of_blank_or_colon a H1) in Hc.
    destruct H1 as [-> | ->]; discriminate Hc.
  - simpl in H1, H2, Hc. destruct s as [|a s]; [done|].
    destruct (Ascii.eqb_spec (Chars.lower a) (Chars.lower c1)) as [E|];
      [|done].
    apply after_colon_head in H2.
    rewrite <-E, (lower_of_blank_or_colon a H2) in Hc.
    destruct H2 as [-> | ->]; discriminate Hc.
  - simpl in H1, H2, Hc. destruct s as [|a s]; [done|].
    destruct (Ascii.eqb_spec (Chars.lower a) (Chars.lower c1)) as [E1|];
      [|done].
    destruct (Ascii.eqb_spec (Chars.lower a) (Chars.lower c2)) as [E2|];
      [|done].
    rewrite <-E1, <-E2, Ascii.eqb_refl in Hc. simpl in Hc.
    by apply (IH w2 s r1 r2).
Qed.

Lemma labelled_here_complete keywords s rest :
  distinct_labels keywords →
  labelled keywords s rest → labelled_here keywords s = Some rest.
Proof.
  intros Hd (w & Hin & Hl). apply label_here_spec in Hl.
  induction keywords as [|w0 ws IH]; [by apply not_elem_of_nil in Hin|].
  simpl. destruct (label_here w0 s) as [r0|] eqn:E0.
  - destruct (Hd w0 w) as [->|Hc]; [left|done| |].
    + congruence.
    + destruct (no_clash _ _ _ _ _ Hc E0 Hl).
  - apply elem_of_cons in Hin as [->|Hin]; [congruence|].
    apply IH; [|done]. intros w1 w2 H1 H2. apply Hd; by right.
Qed.

Lemma user_keywords_distinct : distinct_labels user_keywords.
Proof.
  intros w1 w2 H1 H2. unfold user_keywords in *.
  repeat (apply elem_of_cons in H1 as [->|H1]);
    try (by apply not_elem_of_nil in H1);
    repeat (apply elem_of_cons in H2 as [->|H2]);
    try (by apply not_elem_of_nil in H2);
    first [by left|by right].
Qed.

Lemma pwd_keywords_distinct : distinct_labels pwd_keywords.
Proof.
  intros w1 w2 H1 H2. unfold pwd_keywords in *.
  repeat (apply elem_of_cons in H1 as [->|H1]);
    try (by apply not_elem_of_nil in H1);
    repeat (apply elem_of_cons in H2 as [->|H2]);
    try (by apply not_elem_of_nil in H2);
    first [by left|by right].
Qed.

End Labels.
(** ** C4 and C5 *)

Section KeywordArtifacts.
Import Re Keyword.

(** A search for a keyword pattern, then [group(2).strip()] or the
    placeholder: the trimmed rest of the line after the first label. *)
Lemma keyword_artifact w ws body :
  match search true (pattern w ws) body with
  | Some m => Str.strip (group m 2)
  | None => placeholder
  end
  = match first_match (labelled_here (w :: ws)) body with
    | Some rest => Str.strip (line rest)
    | None => placeholder
    end.
Proof.
  rewrite search_first_match.
  set (h := fun t => rmatch true (pattern w ws)
                       (fun t' g => Some (<[0 := consumed t t']> g)) t ∅).
  assert ((fun m => group m 2) <$> first_match h body
          = line <$> first_match (labelled_here (w :: ws)) body) as E.
  { rewrite !first_match_fmap. apply first_match_ext.
    intros t. apply keyword_match. }
  destruct (first_match h body) as [m|],
    (first_match (labelled_here (w :: ws)) body) as [rest|];
    simpl in E; try discriminate E; [|done].
  injection E as ->. done.
Qed.

Lemma username_first_label body :
  (pull_artifacts body).1.1
  = match first_match (labelled_here user_keywords) body with
    | Some rest => Str.strip (line rest)
    | None => placeholder
    end.
Proof.
  unfold pull_artifacts, re_search_ignorecase. cbn [fst].
  rewrite compile_user_pattern. apply keyword_artifact.
Qed.

Lemma password_first_label body :
  (pull_artifacts body).1.2
  = match first_match (labelled_here pwd_keywords) body with
    | Some rest => Str.strip (line rest)
    | None => placeholder
    end.
Proof.
  unfold pull_artifacts, re_search_ignorecase. cbn [fst snd].
  rewrite compile_pwd_pattern. apply keyword_artifact.
Qed.

(** The first label found from the left is the one the specification
    describes, when no two keywords can label the same text. *)
Lemma first_label_found keywords body rest :
  distinct_labels keywords →
  first_labelled keywords body rest →
  first_match (labelled_here keywords) body = Some rest.
Proof.
  intros Hd (pre & s & Hbody & Hl & Hmin).
  apply (first_match_at _ pre body s); [done| |].
  - by apply labelled_here_complete.
  - intros pre' s' Hbody' Hlen.
    destruct (labelled_here keywords s') as [r|] eqn:E; [|done].
    apply labelled_here_sound in E.
    specialize (Hmin pre' s' r Hbody' E). lia.
Qed.

Lemma no_label_found keywords body :
  (∀ pre s rest, body = pre +:+ s → ¬ labelled keywords s rest) →
  first_match (labelled_here keywords) body = None.
Proof.
  intros Hnone. apply first_match_none. intros pre s Hbody.
  destruct (labelled_here keywords s) as [r|] eqn:E; [|done].
  apply labelled_here_sound in E. by destruct (Hnone pre s r).
Qed.

Lemma first_match_some_min {A} (h : string → option A) body : ∀ r,
  first_match h body = Some r →
  ∃ pre s, body = pre +:+ s ∧ h s = Some r ∧
    ∀ pre' s', body = pre' +:+ s' →
               String.length pre' < String.length pre → h s' = None.
Proof.
  induction body as [|c body IH]; intros r; rewrite first_match_unfold.
  - destruct (h "") eqn:E; [|done]. intros [= ->]. exists "", "".
    split_and!; [done..|]. simpl. intros; lia.
  - destruct (h (String c body)) eqn:E.
    + intros [= ->]. exists "", (String c body).
      split_and!; [done..|]. simpl. intros; lia.
    + intros (pre & s & -> & Hs & Hmin)%IH. exists (String c pre), s.
      split_and!; [done..|]. intros [|c' pre'] s' Hbody Hlen.
      * rewrite str_app_nil_l in Hbody. by subst.
      * rewrite !str_app_cons in Hbody. injection Hbody as -> Hbody.
        apply (Hmin pre' s' Hbody). simpl in Hlen. lia.
Qed.

Lemma first_match_none_inv {A} (h : string → option A) body :
  first_match h body = None → ∀ pre s, body = pre +:+ s → h s = None.
Proof.
  induction body as [|c body IH]; rewrite first_match_unfold.
  - destruct (h "") eqn:E; [done|]. intros _ [|c pre] s Hbody;
      [|discriminate Hbody]. rewrite str_app_nil_l in Hbody. by subst.
  - destruct (h (String c body)) eqn:E; [done|].
    intros Hnone [|c' pre] s Hbody.
    + rewrite str_app_nil_l in Hbody. by subst.
    + rewrite str_app_cons in Hbody. injection Hbody as -> Hbody.
      by apply (IH Hnone pre).
Qed.

(** Both hypotheses of the artifact theorems can be checked by running
    the search of the first label. *)
Lemma first_labelled_checked keywords body rest :
  distinct_labels keywords →
  first_match (labelled_here keywords) body = Some rest →
  first_labelled keywords body rest.
Proof.
  intros Hd (pre & s & Hbody & Hs & Hmin)%first_match_some_min.
  exists pre, s. split_and!; [done|by apply labelled_here_sound|].
  intros pre' s' rest' Hbody' Hl.
  destruct (decide (String.length pre ≤ String.length pre')); [done|].
  specialize (Hmin pre' s' Hbody').
  rewrite (labelled_here_complete _ _ _ Hd Hl) in Hmin.
  assert (Some rest' = None) by (apply Hmin; lia). done.
Qed.

Lemma not_labelled_checked keywords body :
  distinct_labels keywords →
  first_match (labelled_here keywords) body = None →
  ∀ pre s rest, body = pre +:+ s → ¬ labelled keywords s rest.
Proof.
  intros Hd Hnone pre s rest Hbody Hl.
  apply (labelled_here_complete _ _ _ Hd) in Hl.
  by rewrite (first_match_none_inv _ _ Hnone pre s Hbody) in Hl.
Qed.

End KeywordArtifacts.

(** C4: when [rest] is what follows the first occurrence in the body of
    [username] or [email] (in any letter case) followed by blanks and a
    colon, the username artifact is the part of [rest] up to the end of
    its line with the surrounding whitespace removed; when the body has no
    such occurrence, it is the placeholder. *)
Theorem username_artifact (body : string) :
  (∀ rest, first_labelled user_keywords body rest →
     (pull_artifacts body).1.1 = Str.strip (Keyword.line rest)) ∧
  ((∀ pre s rest, body = pre +:+ s → ¬ labelled user_keywords s rest) →
     (pull_artifacts body).1.1 = "*").
Proof.
  rewrite username_first_label. split.
  - intros rest Hfirst.
    by rewrite (first_label_found _ _ _ user_keywords_distinct Hfirst).
  - intros Hnone. by rewrite (no_label_found _ _ Hnone).
Qed.

(** C5: when [rest] is what follows, at the first position of the body
    where it happens, one of the keywords [email password], [password],
    [pass], [pd], [ps] (in any letter case) followed by blanks and a colon,
    the password artifact is the part of [rest] up to the end of its line
    with the surrounding whitespace removed; when the body has no such
    position, it is the placeholder.  At one position at most one of the
    keywords can be followed by blanks and a colon, so the order in which
    they are tried does not show. *)
Theorem password_artifact (body : string) :
  (∀ rest, first_labelled pwd_keywords body rest →
     (pull_artifacts body).1.2 = Str.strip (Keyword.line rest)) ∧
  ((∀ pre s rest, body = pre +:+ s → ¬ labelled pwd_keywords s rest) →
     (pull_artifacts body).1.2 = "*") ∧
  (∀ s rest rest',
     labelled pwd_keywords s rest → labelled pwd_keywords s rest' →
     rest = rest').
Proof.
  rewrite password_first_label. split_and!.
  - intros rest Hfirst.
    by rewrite (first_label_found _ _ _ pwd_keywords_distinct Hfirst).
  - intros Hnone. by rewrite (no_label_found _ _ Hnone).
  - intros s rest rest' H1 H2.
    apply (labelled_here_complete _ _ _ pwd_keywords_distinct) in H1, H2.
    congruence.
Qed.

Lemma username_artifact_witness :
  (pull_artifacts "Hello,
Username: alice@example.com  
Regards").1.1 = "alice@example.com" ∧
  (pull_artifacts "no credentials in this mail").1.1 = "*".
Proof.
  split.
  - rewrite (proj1 (username_artifact _) " alice@example.com  
Regards").
    + vm_compute. reflexivity.
    + apply (first_labelled_checked _ _ _ user_keywords_distinct).
      vm_compute. reflexivity.
  - apply (proj2 (username_artifact _)).
    apply (not_labelled_checked _ _ user_keywords_distinct).
    vm_compute. reflexivity.
Defined.

Lemma password_artifact_witness :
  (pull_artifacts "the password : hunter2
Pass: other").1.2 = "hunter2" ∧
  (pull_artifacts "passage: none").1.2 = "*".
Proof.
  split.
  - rewrite (proj1 (password_artifact _) " hunter2
Pass: other").
    + vm_compute. reflexivity.
    + apply (first_labelled_checked _ _ _ pwd_keywords_distinct).
      vm_compute. reflexivity.
  - apply (proj1 (proj2 (password_artifact _))).
    apply (not_labelled_checked _ _ pwd_keywords_distinct).
    vm_compute. reflexivity.
Defined.
(** ** The dotted-quad pattern *)

Module Quad.
Import Re.

(** Three times an octet and a period, then a last octet, in group 1,
    after any number of colons. *)
Definition octets : regex :=
  Seq (Repeat ADigit 1 3) (Seq (Atom (ALit "."))
  (Seq (Repeat ADigit 1 3) (Seq (Atom (ALit "."))
  (Seq (Repeat ADigit 1 3) (Seq (Atom (ALit "."))
  (Repeat ADigit 1 3)))))).

Definition pattern : regex := Seq (Star (ALit ":")) (Group 1 octets).

Definition is_colon (c : ascii) : bool := Ascii.eqb c ":".

(** [s] without a leading run of one to three digits and the period that
    follows it. *)
Definition octet_dot (s : string) : option string :=
  let n := String.length (Str.take_while Chars.is_digit s) in
  if (1 <=? n) && (n <=? 3) then
    match Str.drop_while Chars.is_digit s with
    | String c s' => if Ascii.eqb c "." then Some s' else None
    | "" => None
    end
  else None.

(** [s] without its leading digits, three of them at most. *)
Definition last_octet (s : string) : option string :=
  let n := Nat.min 3 (String.length (Str.take_while Chars.is_digit s)) in
  if 1 <=? n then Some (Str.drop n s) else None.

(** The dotted quad at the start of [s], its last octet as long as it
    can be. *)
(** [s] without the dotted quad it starts with. *)
Definition after_quad (s : string) : option string :=
  s1 ← octet_dot s; s2 ← octet_dot s1; s3 ← octet_dot s2; last_octet s3.

Definition quad_here (s : string) : option string :=
  match after_quad s with
  | Some rest => Some (consumed s rest)
  | None => None
  end.

End Quad.

Section QuadFacts.
Import Re Quad.

Lemma compile_ip_pattern : ReParse.compile ip_pattern = Some pattern.
Proof. reflexivity. Qed.

Lemma digit_not_period c : Chars.is_digit c = true → Ascii.eqb c "." = false.
Proof. by destruct c as [[] [] [] [] [] [] [] []]. Qed.

Lemma digit_not_colon c : Chars.is_digit c = true → Ascii.eqb c ":" = false.
Proof. by destruct c as [[] [] [] [] [] [] [] []]. Qed.

Lemma rmatch_octet_dot r k s g :
  rmatch true (Seq (Repeat ADigit 1 3) (Seq (Atom (ALit ".")) r)) k s g
  = match octet_dot s with
    | Some s' => rmatch true r k s' g
    | None => None
    end.
Proof.
  cbn [rmatch]. change (atom_ok true ADigit) with Chars.is_digit.
  rewrite repeat_greedy_skip.
  - unfold octet_dot. cbv zeta. destruct (_ && _); [|done].
    destruct (Str.drop_while Chars.is_digit s) as [|c s']; [done|].
    rewrite atom_period. by destruct (Ascii.eqb c ".").
  - intros c s' Hc. by rewrite atom_period, digit_not_period.
Qed.

Lemma rmatch_last_octet (k : string → groups → option groups) s g :
  (∀ s' g', is_Some (k s' g')) →
  rmatch true (Repeat ADigit 1 3) k s g
  = match last_octet s with
    | Some s' => k s' g
    | None => None
    end.
Proof.
  intros Hk. cbn [rmatch]. change (atom_ok true ADigit) with Chars.is_digit.
  rewrite repeat_greedy_total by (intros; apply Hk).
  unfold last_octet. cbv zeta. by destruct (1 <=? _).
Qed.

Lemma quad_here_colon s : quad_here (String ":" s) = None.
Proof. reflexivity. Qed.

Lemma octets_match (k : string → groups → option groups) s g :
  (∀ s' g', is_Some (k s' g')) →
  rmatch true octets k s g
  = match after_quad s with
    | Some rest => k rest g
    | None => None
    end.
Proof.
  intros Hk. unfold octets, after_quad. rewrite rmatch_octet_dot.
  destruct (octet_dot s) as [s1|]; [|done]. cbn [mbind option_bind].
  rewrite rmatch_octet_dot.
  destruct (octet_dot s1) as [s2|]; [|done]. cbn [mbind option_bind].
  rewrite rmatch_octet_dot.
  destruct (octet_dot s2) as [s3|]; [|done]. cbn [mbind option_bind].
  by rewrite rmatch_last_octet.
Qed.

Lemma drop_while_colon s :
  Str.drop_while (atom_ok true (ALit ":")) s = Str.drop_while is_colon s.
Proof.
  induction s as [|c s IH]; [done|].
  cbn [Str.drop_while]. rewrite atom_colon, IH. done.
Qed.

Lemma quad_match s :
  (fun m => group m 1)
    <$> rmatch true pattern (fun t' g => Some (<[0 := consumed s t']> g)) s ∅
  = quad_here (Str.drop_while is_colon s).
Proof.
  unfold pattern. cbn [rmatch]. rewrite star_greedy_skip.
  - rewrite drop_while_colon. rewrite octets_match by eauto.
    unfold quad_here.
    destruct (after_quad _) as [rest|]; [|done]. simpl.
    unfold group. by rewrite lookup_insert_ne, lookup_insert_eq by done.
  - intros c s' Hc. rewrite atom_colon in Hc. apply Ascii.eqb_eq in Hc as ->.
    by rewrite octets_match by eauto.
Qed.

(** Colons before a quad do not move it: searching with or without them
    finds the same quad. *)
Lemma first_quad_after_colons body :
  first_match (fun t => quad_here (Str.drop_while is_colon t)) body
  = first_match quad_here body.
Proof.
  induction body as [|c body IH]; [done|].
  rewrite (first_match_unfold quad_here).
  rewrite (first_match_unfold (fun t => quad_here (Str.drop_while is_colon t))).
  rewrite IH. cbn [Str.drop_while].
  destruct (is_colon c) eqn:Hc; [|done].
  apply Ascii.eqb_eq in Hc as ->. rewrite quad_here_colon.
  rewrite <-IH, first_match_unfold.
  by destruct (quad_here (Str.drop_while is_colon body)).
Qed.

Lemma quad_search body :
  (fun m => group m 1) <$> search true pattern body
  = first_match quad_here body.
Proof.
  rewrite search_first_match, first_match_fmap, <-first_quad_after_colons.
  apply first_match_ext. intros t. cbv beta. exact (quad_match t).
Qed.

Lemma ip_first_quad body :
  (pull_artifacts body).2
  = match first_match quad_here body with
    | Some t => Str.strip t
    | None => placeholder
    end.
Proof.
  unfold pull_artifacts, re_search_ignorecase. cbn [snd].
  rewrite compile_ip_pattern, <-quad_search.
  by destruct (search true pattern body).
Qed.

End QuadFacts.
(** ** Dotted quads, in the words of the specification *)

Fixpoint all_digits (s : string) : bool :=
  match s with
  | "" => true
  | String c s' => Chars.is_digit c && all_digits s'
  end.

(** One to three digits. *)
Definition octet (d : string) : Prop :=
  all_digits d = true ∧ 1 ≤ String.length d ≤ 3.

(** Four octets separated by periods. *)
Definition dotted_quad (t : string) : Prop :=
  ∃ a b c d, octet a ∧ octet b ∧ octet c ∧ octet d ∧
    t = a +:+ "." +:+ b +:+ "." +:+ c +:+ "." +:+ d.

Section QuadSpec.
Import Re Quad.

Lemma take_drop_while p s : Str.take_while p s +:+ Str.drop_while p s = s.
Proof.
  induction s as [|c s IH]; simpl; [done|]. destruct (p c); [|done].
  by rewrite str_app_cons, IH.
Qed.

Lemma take_while_all s : all_digits (Str.take_while Chars.is_digit s) = true.
Proof.
  induction s as [|c s IH]; simpl; [done|].
  destruct (Chars.is_digit c) eqn:Hc; simpl; [|done]. by rewrite Hc, IH.
Qed.

Lemma take_while_digits d r :
  all_digits d = true →
  Str.take_while Chars.is_digit (d +:+ r) = d +:+ Str.take_while Chars.is_digit r
  ∧ Str.drop_while Chars.is_digit (d +:+ r) = Str.drop_while Chars.is_digit r.
Proof.
  induction d as [|c d IH]; [done|]. simpl. intros [Hc Hd]%andb_true_iff.
  rewrite str_app_cons. simpl. rewrite Hc.
  destruct (IH Hd) as [-> ->]. split; reflexivity.
Qed.

Lemma octet_dot_complete a r : octet a → octet_dot (a +:+ "." +:+ r) = Some r.
Proof.
  intros [Ha Hlen]. unfold octet_dot.
  destruct (take_while_digits a ("." +:+ r) Ha) as [-> ->].
  change ("." +:+ r) with (String "." r). cbn [Str.take_while Str.drop_while].
  change (Chars.is_digit ".") with false. cbv iota zeta.
  rewrite str_app_nil_r.
  destruct (Nat.leb_spec 1 (String.length a)); [|lia].
  destruct (Nat.leb_spec (String.length a) 3); [|lia]. done.
Qed.

Lemma octet_dot_sound s r :
  octet_dot s = Some r → ∃ a, octet a ∧ s = a +:+ "." +:+ r.
Proof.
  unfold octet_dot. cbv zeta.
  destruct (Nat.leb_spec 1 (String.length (Str.take_while Chars.is_digit s)));
    [|done].
  destruct (Nat.leb_spec (String.length (Str.take_while Chars.is_digit s)) 3);
    [|done]. simpl.
  destruct (Str.drop_while Chars.is_digit s) as [|c s'] eqn:E; [done|].
  destruct (Ascii.eqb_spec c ".") as [->|]; [|done]. intros [= ->].
  exists (Str.take_while Chars.is_digit s). split.
  - split; [apply take_while_all|done].
  - change ("." +:+ r) with (String "." r). rewrite <-E.
    by rewrite take_drop_while.
Qed.

Lemma take_drop n s : Str.take n s +:+ Str.drop n s = s.
Proof.
  revert s. induction n as [|n IH]; intros [|c s]; simpl; try done.
  by rewrite str_app_cons, IH.
Qed.

Lemma take_length n s :
  n ≤ String.length s → String.length (Str.take n s) = n.
Proof.
  revert s. induction n as [|n IH]; intros [|c s]; simpl; try done; [lia|].
  intros H. rewrite IH; [done|lia].
Qed.

Lemma all_digits_take n s :
  n ≤ String.length (Str.take_while Chars.is_digit s) →
  all_digits (Str.take n s) = true.
Proof.
  revert s. induction n as [|n IH]; intros [|c s]; simpl; try done.
  destruct (Chars.is_digit c) eqn:Hc; simpl; [|lia].
  intros H. rewrite IH; [done|lia].
Qed.

Lemma take_while_length_le p s :
  String.length (Str.take_while p s) ≤ String.length s.
Proof. induction s as [|c s IH]; simpl; [done|]. destruct (p c); simpl; lia. Qed.

Lemma last_octet_sound s r :
  last_octet s = Some r → ∃ d, octet d ∧ s = d +:+ r.
Proof.
  unfold last_octet. cbv zeta.
  set (n := Nat.min 3 (String.length (Str.take_while Chars.is_digit s))).
  destruct (Nat.leb_spec 1 n); [|done]. intros [= <-].
  exists (Str.take n s). split; [|by rewrite take_drop].
  pose proof (take_while_length_le Chars.is_digit s).
  split; [apply all_digits_take; lia|].
  rewrite take_length; lia.
Qed.

Lemma drop_length n s :
  String.length (Str.drop n s) = String.length s - n.
Proof.
  revert s. induction n as [|n IH]; intros [|c s]; simpl; try done.
Qed.

Lemma last_octet_complete d r :
  octet d →
  ∃ r', last_octet (d +:+ r) = Some r' ∧ String.length r' ≤ String.length r.
Proof.
  intros [Hd Hlen]. unfold last_octet. cbv zeta.
  destruct (take_while_digits d r Hd) as [-> _].
  rewrite str_app_length.
  set (n := Nat.min 3 _).
  destruct (Nat.leb_spec 1 n); [|lia].
  eexists; split; [done|]. rewrite drop_length, str_app_length. lia.
Qed.

Lemma consumed_app t rest : consumed (t +:+ rest) rest = t.
Proof.
  unfold consumed. rewrite str_app_length.
  replace (String.length t + String.length rest - String.length rest)
    with (String.length t) by lia.
  induction t as [|c t IH].
  - by destruct rest.
  - rewrite str_app_cons. simpl. by rewrite IH.
Qed.

Lemma consumed_length s rest :
  String.length rest ≤ String.length s →
  String.length (consumed s rest) = String.length s - String.length rest.
Proof. intros H. unfold consumed. apply take_length. lia. Qed.

Lemma quad_here_sound s t :
  quad_here s = Some t → dotted_quad t ∧ ∃ post, s = t +:+ post.
Proof.
  unfold quad_here, after_quad.
  destruct (octet_dot s) as [s1|] eqn:E1; [|done]. cbn [mbind option_bind].
  destruct (octet_dot s1) as [s2|] eqn:E2; [|done]. cbn [mbind option_bind].
  destruct (octet_dot s2) as [s3|] eqn:E3; [|done]. cbn [mbind option_bind].
  destruct (last_octet s3) as [rest|] eqn:E4; [|done]. intros [= <-].
  apply octet_dot_sound in E1 as (a & Ha & ->).
  apply octet_dot_sound in E2 as (b & Hb & ->).
  apply octet_dot_sound in E3 as (c & Hc & ->).
  apply last_octet_sound in E4 as (d & Hd & ->).
  assert (a +:+ "." +:+ b +:+ "." +:+ c +:+ "." +:+ d +:+ rest
          = (a +:+ "." +:+ b +:+ "." +:+ c +:+ "." +:+ d) +:+ rest) as ->.
  { by rewrite !str_app_assoc. }
  rewrite consumed_app. split; [by exists a, b, c, d|by exists rest].
Qed.

Lemma quad_here_complete t post :
  dotted_quad t →
  ∃ t0, quad_here (t +:+ post) = Some t0 ∧ String.length t ≤ String.length t0.
Proof.
  intros (a & b & c & d & Ha & Hb & Hc & Hd & ->).
  unfold quad_here, after_quad. rewrite !str_app_assoc.
  rewrite (octet_dot_complete a) by done. cbn [mbind option_bind].
  rewrite (octet_dot_complete b) by done. cbn [mbind option_bind].
  rewrite (octet_dot_complete c) by done. cbn [mbind option_bind].
  destruct (last_octet_complete d post Hd) as (r' & -> & Hlen).
  eexists; split; [done|].
  rewrite consumed_length; rewrite !str_app_length; simpl; lia.
Qed.

Lemma space_not_digit c : Chars.is_digit c = true → Chars.is_space c = false.
Proof. by destruct c as [[] [] [] [] [] [] [] []]. Qed.

Fixpoint no_space (s : string) : bool :=
  match s with
  | "" => true
  | String c s' => negb (Chars.is_space c) && no_space s'
  end.

Lemma strip_no_space s : no_space s = true → Str.strip s = s.
Proof.
  unfold Str.strip, Str.lstrip. intros H.
  assert (Str.drop_while Chars.is_space s = s) as ->.
  { destruct s as [|c s]; [done|]. simpl in *.
    by destruct (Chars.is_space c). }
  induction s as [|c s IH]; simpl in *; [done|].
  apply andb_true_iff in H as [Hc Hs].
  destruct (Chars.is_space c); [done|]. simpl. by rewrite IH.
Qed.

Lemma no_space_app s t : no_space (s +:+ t) = no_space s && no_space t.
Proof.
  induction s as [|c s IH]; [done|]. rewrite str_app_cons. simpl.
  by rewrite IH, andb_assoc.
Qed.

Lemma no_space_digits d : all_digits d = true → no_space d = true.
Proof.
  induction d as [|c d IH]; simpl; [done|].
  intros [Hc Hd]%andb_true_iff. by rewrite (space_not_digit c Hc), IH.
Qed.

Lemma dotted_quad_no_space t : dotted_quad t → no_space t = true.
Proof.
  intros (a & b & c & d & [Ha _] & [Hb _] & [Hc _] & [Hd _] & ->).
  rewrite !no_space_app.
  rewrite (no_space_digits a Ha), (no_space_digits b Hb),
    (no_space_digits c Hc), (no_space_digits d Hd).
  reflexivity.
Qed.

Lemma dotted_quad_not_placeholder t : dotted_quad t → t ≠ placeholder.
Proof.
  intros (a & b & c & d & [Ha Hlen] & _ & _ & _ & ->).
  destruct a as [|x a]; simpl in Hlen; [lia|].
  apply andb_true_iff in Ha as [Hx _]. rewrite str_app_cons.
  intros [= -> _]. done.
Qed.

End QuadSpec.
(** ** C3 *)

(** C3: the IP artifact is the placeholder exactly when no dotted quad
    (four groups of one to three digits separated by periods) occurs in
    the body; otherwise it is the dotted quad that starts at the first
    position where one occurs, taken as long as possible, whatever the
    value of its groups and whether or not colons precede it. *)
Theorem ip_artifact (body : string) :
  let ip := (pull_artifacts body).2 in
  (ip = "*" ↔ ∀ pre t post, body = pre +:+ t +:+ post → ¬ dotted_quad t) ∧
  (∀ pre t post,
     body = pre +:+ t +:+ post → dotted_quad t →
     (∀ pre' t' post', body = pre' +:+ t' +:+ post' → dotted_quad t' →
                       String.length pre ≤ String.length pre') →
     dotted_quad ip ∧ (∃ post0, body = pre +:+ ip +:+ post0) ∧
     String.length t ≤ String.length ip) ∧
  (pull_artifacts "999.999.999.999").2 = "999.999.999.999" ∧
  (pull_artifacts "IP: 192.168.1.1").2 = "192.168.1.1".
Proof.
  cbv zeta. rewrite ip_first_quad. split_and!.
  - split.
    + destruct (first_match Quad.quad_here body) as [t0|] eqn:E.
      * intros Hstar.
        apply first_match_some in E as (pre & s & _ & Hs).
        apply quad_here_sound in Hs as [Hq _].
        rewrite (strip_no_space _ (dotted_quad_no_space _ Hq)) in Hstar.
        by destruct (dotted_quad_not_placeholder _ Hq).
      * intros _ pre t post Hbody Hq.
        destruct (quad_here_complete t post Hq) as (t0 & Ht0 & _).
        by rewrite (first_match_none_inv _ _ E pre _ Hbody) in Ht0.
    + intros Hnone.
      destruct (first_match Quad.quad_here body) as [t0|] eqn:E; [|done].
      apply first_match_some in E as (pre & s & -> & Hs).
      apply quad_here_sound in Hs as [Hq [post ->]].
      by destruct (Hnone pre t0 post).
  - intros pre t post Hbody Hq Hmin.
    destruct (quad_here_complete t post Hq) as (t0 & Ht0 & Hlen).
    rewrite (first_match_at _ pre body (t +:+ post) t0 Hbody Ht0).
    + destruct (quad_here_sound _ _ Ht0) as [Hq0 [post0 Hpost0]].
      rewrite (strip_no_space _ (dotted_quad_no_space _ Hq0)).
      split_and!; [done| |done]. exists post0. by rewrite <-Hpost0.
    + intros pre' s' Hbody' Hlt.
      destruct (Quad.quad_here s') as [t'|] eqn:E; [|done].
      apply quad_here_sound in E as [Hq' [post' ->]].
      specialize (Hmin pre' t' post' Hbody' Hq'). lia.
  - vm_compute. reflexivity.
  - vm_compute. reflexivity.
Qed.

(** A dotted quad found by running the search is the first one of the
    body. *)
Lemma first_quad_checked body t :
  first_match Quad.quad_here body = Some t →
  ∃ pre post, body = pre +:+ t +:+ post ∧ dotted_quad t ∧
    ∀ pre' t' post', body = pre' +:+ t' +:+ post' → dotted_quad t' →
                     String.length pre ≤ String.length pre'.
Proof.
  intros (pre & s & Hbody & Hs & Hmin)%first_match_some_min.
  destruct (quad_here_sound _ _ Hs) as [Hq [post ->]].
  exists pre, post. split_and!; [done..|].
  intros pre' t' post' Hbody' Hq'.
  destruct (decide (String.length pre ≤ String.length pre')); [done|].
  destruct (quad_here_complete t' post' Hq') as (t0 & Ht0 & _).
  rewrite (Hmin pre' _ Hbody') in Ht0 by lia. done.
Qed.

Lemma ip_artifact_witness :
  (dotted_quad (pull_artifacts "from 1234.5.6.7890 and 10.0.0.1").2 ∧
   String.length "234.5.6.789"
   ≤ String.length (pull_artifacts "from 1234.5.6.7890 and 10.0.0.1").2) ∧
  (pull_artifacts "no address, only 1.2.3 and 4.5").2 = "*".
Proof.
  split.
  - destruct (first_quad_checked "from 1234.5.6.7890 and 10.0.0.1"
                "234.5.6.789") as (pre & post & Hbody & Hq & Hmin);
      [vm_compute; reflexivity|].
    destruct (proj1 (proj2 (ip_artifact _)) pre _ post Hbody Hq Hmin)
      as (Hip & _ & Hlen).
    split; [exact Hip|exact Hlen].
  - apply (proj1 (ip_artifact _)).
    intros pre t post Hbody Hq.
    destruct (quad_here_complete t post Hq) as (t0 & Ht0 & _).
    rewrite (first_match_none_inv Quad.quad_here
               "no address, only 1.2.3 and 4.5"
               ltac:(vm_compute; reflexivity) pre _ Hbody) in Ht0.
    discriminate Ht0.
Defined.
(** * Further properties of the program *)

(** ** [main]: arguments and exit status *)

Definition usage_message : string :=
  "Error: Please provide a directory path to where the emails are located and a name for the .CSV file. ".

Definition not_a_directory_message : string :=
  "Argument provided is not a directory.".

Definition success_line : string := "CSV file successfully written!".
Definition failure_line : string := "I/O Error!".

Definition progress_line (entry : dir_entry) : string :=
  "Working on parsing file: " +:+ entry_name entry.

(** The records of the selected entries of a directory, in its order. *)
Definition records_of (dir : string) (entries : list dir_entry)
    : list record :=
  record_of ∘ Os.open_r dir <$> selected entries.

(** The header names of the selected entries of a directory. *)
Definition names_of (dir : string) (entries : list dir_entry) : gset string :=
  ⋃ ((fun entry => list_to_set (header_names (Os.open_r dir entry)))
       <$> selected entries).

Section MainFacts.

(** What [main] does on a directory, with and without an output fault. *)
Lemma main_on_directory e prog dir out entries :
  fs e !! dir = Some (Directory entries) →
  let data := records_of dir entries in
  let cols := csv_columns_of (names_of dir entries) in
  ∃ st3,
    main e [prog; dir; out] initial_state = (Ret (), st3) ∧
    email_header_fields st3 = names_of dir entries ∧
    (¬ io_fails_in e 0 (length data + 3) →
       stdout st3 = (progress_line <$> selected entries)
                    ++ [processed_line (length data); success_line] ∧
       disk st3 !! out = Some ((PStr <$> cols) :: rows_of cols data)) ∧
    (io_fails_in e 0 (length data + 3) →
       stdout st3 = (progress_line <$> selected entries)
                    ++ [processed_line (length data); failure_line]).
Proof.
  intros Hdir data cols.
  destruct (main_run e prog dir out entries Hdir)
    as (st1 & Hload & Hf & Hout & Hc & Hd & Hmain).
  specialize (Hmain _ eq_refl). fold (records_of dir entries) in Hmain.
  fold data in Hmain. fold (names_of dir entries) in Hf.
  assert (length (selected entries) = length data) as Hlen
    by (symmetry; apply length_fmap).
  rewrite Hlen in Hmain.
  set (st1' := {| email_header_fields := email_header_fields st1;
                  stdout := stdout st1 ++ [processed_line (length data)];
                  disk := disk st1; io_clock := io_clock st1 |}) in *.
  assert (Forall (fun rec : record =>
            dom rec ⊆ list_to_set (csv_columns_of (email_header_fields st1')))
            data) as Hfit.
  { simpl. rewrite Hf. unfold names_of. rewrite <-(left_id_L ∅ (∪) (⋃ _)).
    apply loaded_records_fit. }
  destruct (decide (io_fails_in e 0 (length data + 3))) as [Hfail|Hfine].
  - destruct (write_data_to_file_fail e data out st1' Hfit)
      as (st2 & Hw & Hout2 & Hf2); [simpl; by rewrite Hc|].
    rewrite Hw in Hmain. exists st2. split_and!; [done| | |].
    + by rewrite Hf2.
    + intros Hn. by destruct Hn.
    + intros _. rewrite Hout2. simpl. rewrite Hout.
      by rewrite <-(assoc_L (++)).
  - destruct (write_data_to_file_ok e data out st1' Hfit)
      as (st2 & Hw & [Hout2 Hf2] & Hd2); [simpl; by rewrite Hc|].
    rewrite Hw in Hmain. simpl in Hf2, Hd2. rewrite Hf in Hd2, Hf2.
    eexists. split_and!; [exact Hmain| | |].
    + simpl. by rewrite Hf2.
    + intros _. simpl. rewrite Hout2. simpl. rewrite Hout.
      split; [by rewrite <-(assoc_L (++))|done].
    + intros Hn. by destruct Hfine.
Qed.

End MainFacts.

(** X1: [main] ends before doing anything when its arguments are wrong:
    with an argument count other than two it exits with the usage
    message, with a first argument that names nothing it exits with the
    message [Argument provided is not a directory.], and with a first
    argument that names a regular file it ends with an uncaught
    [NotADirectoryError]; in all three cases nothing is printed and no
    table is written. *)
Theorem main_rejects_arguments (e : env) (argv : list string) (st : state) :
  (length argv ≠ 3 →
     main e argv st = (Raise (SystemExit usage_message), st)) ∧
  (∀ prog dir out, argv = [prog; dir; out] → fs e !! dir = None →
     main e argv st = (Raise (SystemExit not_a_directory_message), st)) ∧
  (∀ prog dir out, argv = [prog; dir; out] → fs e !! dir = Some RegularFile →
     main e argv st = (Raise NotADirectoryError, st)).
Proof.
  split_and!.
  - intros Hlen.
    destruct argv as [|a [|b [|c [|d l]]]]; simpl in Hlen; try done.
  - intros prog dir out -> Hdir. unfold main, Os.path_exists.
    rewrite bool_decide_eq_false_2; [done|]. rewrite Hdir. by intros [? ?].
  - intros prog dir out -> Hdir. unfold main.
    rewrite (path_exists_true _ _ _ Hdir). change (negb true) with false.
    cbv iota. rewrite bind_run. unfold load_data, Os.scandir.
    by rewrite Hdir.
Qed.

Definition two_file_directory : list dir_entry :=
  [sample_entry "a.eml" [("Subject", "x")]; sample_entry "readme" []].

Definition sample_env (fault : option nat) : env :=
  {| fs := {["mail" := Directory two_file_directory; "notes.txt" := RegularFile]};
     io_fault := fault |}.

Lemma main_rejects_arguments_witness :
  main (sample_env None) ["prog"; "mail"] initial_state
    = (Raise (SystemExit usage_message), initial_state) ∧
  main (sample_env None) ["prog"; "nowhere"; "out.csv"] initial_state
    = (Raise (SystemExit not_a_directory_message), initial_state) ∧
  main (sample_env None) ["prog"; "notes.txt"; "out.csv"] initial_state
    = (Raise NotADirectoryError, initial_state).
Proof.
  split_and!.
  - apply (main_rejects_arguments (sample_env None)). vm_compute. lia.
  - apply (proj1 (proj2 (main_rejects_arguments (sample_env None) _ _))
             "prog" "nowhere" "out.csv"); vm_compute; reflexivity.
  - apply (proj2 (proj2 (main_rejects_arguments (sample_env None) _ _))
             "prog" "notes.txt" "out.csv"); vm_compute; reflexivity.
Defined.

(** X2: the process ends with status 0 only if it was given two
    arguments of which the first names a directory, so every rejected
    argument list gives another status; and once the files are loaded, a
    call of [write_data_to_file] that returns [False] does not change
    this: [main] ends normally right after it, without printing the
    success message. *)
Theorem exit_status_zero_needs_directory (e : env) (argv : list string) :
  (exit_status (main e argv initial_state).1 = 0 →
     ∃ prog dir out entries,
       argv = [prog; dir; out] ∧ fs e !! dir = Some (Directory entries)) ∧
  (∀ prog dir out data st1 st2,
     argv = [prog; dir; out] →
     load_data e dir initial_state = (Ret data, st1) →
     write_data_to_file e data out
       (print (processed_line (length data)) st1).2 = (Ret false, st2) →
     main e argv initial_state = (Ret (), st2)).
Proof.
  split.
  - destruct (decide (length argv = 3)) as [Hlen|Hlen].
    + destruct argv as [|prog [|dir [|out [|d l]]]]; simpl in Hlen; try done.
      destruct (fs e !! dir) as [[|entries]|] eqn:Hdir.
      * unfold main. rewrite (path_exists_true _ _ _ Hdir).
        change (negb true) with false. cbv iota.
        rewrite bind_run. unfold load_data, Os.scandir. by rewrite Hdir.
      * intros _. by exists prog, dir, out, entries.
      * unfold main, Os.path_exists.
        rewrite bool_decide_eq_false_2; [done|]. rewrite Hdir. by intros [? ?].
    + destruct argv as [|a [|b [|c [|d l]]]]; simpl in Hlen; try done.
  - intros prog dir out data st1 st2 -> Hload Hwrite.
    assert (∃ entries, fs e !! dir = Some (Directory entries)) as [entries Hdir].
    { revert Hload. unfold load_data, Os.scandir. rewrite bind_run.
      destruct (fs e !! dir) as [[|entries]|]; try done. by exists entries. }
    unfold main. rewrite (path_exists_true _ _ _ Hdir).
    change (negb true) with false. cbv iota.
    rewrite bind_run, Hload, bind_run.
    fold (processed_line (length data)).
    destruct (print (processed_line (length data)) st1) as [[[]|err] st1']
      eqn:Hprint; [|discriminate Hprint].
    cbn [snd] in Hwrite. by rewrite bind_run, Hwrite.
Qed.

(** X3: on a directory and without an output fault, [main] prints one
    progress line per selected file in directory order, then the count,
    then the success message; the table it writes holds the header row
    and, in directory order, one row per selected file with that file's
    record laid out under the columns; the schema set ends as the union
    of the header names of the selected files. *)
Theorem main_writes_table (e : env) (prog dir out : string)
    (entries : list dir_entry) :
  fs e !! dir = Some (Directory entries) →
  io_fault e = None →
  let data := records_of dir entries in
  let cols := csv_columns_of (names_of dir entries) in
  ∃ st3,
    main e [prog; dir; out] initial_state = (Ret (), st3) ∧
    stdout st3 = (progress_line <$> selected entries)
                 ++ [processed_line (length (selected entries)); success_line] ∧
    email_header_fields st3 = names_of dir entries ∧
    disk st3 !! out = Some ((PStr <$> cols) :: rows_of cols data) ∧
    length (rows_of cols data) = length (selected entries).
Proof.
  intros Hdir Hio data cols.
  destruct (main_on_directory e prog dir out entries Hdir)
    as (st3 & Hmain & Hf & Hok & _).
  destruct Hok as [Hout Hd].
  { intros (k & Hk & _). by rewrite Hio in Hk. }
  exists st3. unfold data, records_of, rows_of in *.
  rewrite !length_fmap in *. done.
Qed.

Lemma main_writes_table_witness :
  ∃ st3,
    main (sample_env None) ["prog"; "mail"; "out.csv"] initial_state
      = (Ret (), st3) ∧
    stdout st3 = ["Working on parsing file: a.eml"; "Processed 1 files";
                  "CSV file successfully written!"] ∧
    disk st3 !! "out.csv"
    = Some [PStr <$> ["subject"; "body"; "username"; "password"; "ip";
                      "source-email-file"];
            PStr <$> ["x"; ""; "*"; "*"; "*"; "a.eml"]].
Proof.
  destruct (main_writes_table (sample_env None) "prog" "mail" "out.csv"
              two_file_directory)
    as (st3 & Hmain & Hout & _ & Hd & _); [vm_compute; reflexivity..|].
  exists st3. split; [exact Hmain|]. split.
  - rewrite Hout. vm_compute. reflexivity.
  - rewrite Hd. vm_compute. reflexivity.
Defined.
Lemma exit_status_zero_needs_directory_witness :
  main (sample_env (Some 1)) ["prog"; "mail"; "out.csv"] initial_state
  = (Ret (),
     (write_data_to_file (sample_env (Some 1))
        (records_of "mail" two_file_directory) "out.csv"
        (print (processed_line 1)
           (load_data (sample_env (Some 1)) "mail" initial_state).2).2).2) ∧
  ∃ entries, fs (sample_env (Some 1)) !! "mail" = Some (Directory entries).
Proof.
  split.
  - apply (proj2 (exit_status_zero_needs_directory (sample_env (Some 1)) _)
             "prog" "mail" "out.csv" (records_of "mail" two_file_directory)
             (load_data (sample_env (Some 1)) "mail" initial_state).2).
    + reflexivity.
    + vm_compute. reflexivity.
    + vm_compute. reflexivity.
  - destruct (proj1 (exit_status_zero_needs_directory (sample_env (Some 1))
                       ["prog"; "mail"; "out.csv"]))
      as (prog & dir & out & entries & Heq & Hdir);
      [vm_compute; reflexivity|].
    injection Heq as _ <- _. exists entries. exact Hdir.
Defined.

(** ** [load_data] *)

Section LoadFacts.

Lemma load_data_inv e dir st data st' :
  load_data e dir st = (Ret data, st') →
  ∃ entries, fs e !! dir = Some (Directory entries).
Proof.
  unfold load_data, Os.scandir. rewrite bind_run.
  destruct (fs e !! dir) as [[|entries]|]; try done. by exists entries.
Qed.

Lemma load_data_on_directory e dir entries st :
  fs e !! dir = Some (Directory entries) →
  ∃ st',
    load_data e dir st = (Ret (records_of dir entries), st') ∧
    stdout st' = stdout st ++ (progress_line <$> selected entries) ∧
    email_header_fields st' = email_header_fields st ∪ names_of dir entries ∧
    disk st' = disk st ∧ io_clock st' = io_clock st.
Proof.
  intros Hdir. rewrite (load_data_run _ _ entries) by done.
  destruct (load_entries_run dir entries [] st) as (st' & Hrun & H).
  exists st'. split; [exact Hrun|exact H].
Qed.

End LoadFacts.

(** X4: [load_data] on a directory returns the records of the selected
    entries in the order of the directory, prints one progress line per
    selected entry in that order and nothing else, adds their header
    names to the schema set, and writes no table; entries that are not
    regular files or whose name does not end in [.eml] leave no trace. *)
Theorem load_data_effects (e : env) (dir : string) (entries : list dir_entry)
    (st : state) :
  fs e !! dir = Some (Directory entries) →
  ∃ st',
    load_data e dir st
    = (Ret (record_of ∘ Os.open_r dir <$> selected entries), st') ∧
    stdout st' = stdout st ++ (progress_line <$> selected entries) ∧
    email_header_fields st' = email_header_fields st ∪ names_of dir entries ∧
    disk st' = disk st ∧ io_clock st' = io_clock st ∧
    (∀ entry, entry ∈ selected entries
       ↔ entry ∈ entries ∧ entry_is_file entry = true ∧
         ∃ stem, entry_name entry = stem +:+ ".eml").
Proof.
  intros Hdir.
  destruct (load_data_on_directory e dir entries st Hdir)
    as (st' & Hrun & Hout & Hf & Hd & Hc).
  exists st'. split_and!; try done.
  intros entry. unfold selected, is_eml.
  rewrite list_elem_of_filter, andb_true_iff, ends_with_spec. tauto.
Qed.

Lemma load_data_effects_witness :
  ∃ st',
    load_data (sample_env None) "mail" initial_state
    = (Ret (record_of ∘ Os.open_r "mail" <$> selected two_file_directory), st') ∧
    stdout st' = ["Working on parsing file: a.eml"] ∧
    disk st' = ∅.
Proof.
  destruct (load_data_effects (sample_env None) "mail" two_file_directory
              initial_state)
    as (st' & Hrun & Hout & _ & Hd & _); [vm_compute; reflexivity|].
  exists st'. split; [exact Hrun|]. split.
  - rewrite Hout. vm_compute. reflexivity.
  - rewrite Hd. reflexivity.
Defined.

(** X5: whatever [load_data] returns fits the table written afterwards:
    every key of every record is one of the columns computed from the
    schema set, so the check of the [csv] writer for keys outside its
    columns passes for every loaded record, which gives a row with one
    cell per column. *)
Theorem loaded_records_have_columns (e : env) (dir : string)
    (st st' : state) (data : list record) :
  load_data e dir st = (Ret data, st') →
  let cols := csv_columns_of (email_header_fields st') in
  Forall (fun rec : record => dom rec ⊆ list_to_set cols) data ∧
  Forall (fun rec : record =>
            ∃ r, Csv.dict_to_list cols rec = Ret r ∧ length r = length cols)
         data.
Proof.
  intros Hload cols.
  destruct (load_data_inv _ _ _ _ _ Hload) as [entries Hdir].
  destruct (load_data_on_directory e dir entries st Hdir)
    as (st1 & Hrun & _ & Hf & _).
  rewrite Hrun in Hload. injection Hload as <- <-.
  assert (Forall (fun rec : record => dom rec ⊆ list_to_set cols)
            (records_of dir entries)) as Hfit.
  { unfold cols. rewrite Hf. apply loaded_records_fit. }
  split; [exact Hfit|].
  eapply Forall_impl; [exact Hfit|]. intros rec Hrec. simpl in Hrec.
  unfold Csv.dict_to_list. rewrite decide_True by done.
  eexists; split; [reflexivity|]. by rewrite length_fmap.
Qed.

Lemma loaded_records_have_columns_witness :
  Forall (fun rec : record =>
            dom rec ⊆ list_to_set
              (csv_columns_of
                 (email_header_fields
                    (load_data (sample_env None) "mail" initial_state).2)))
         (records_of "mail" two_file_directory).
Proof.
  apply (loaded_records_have_columns (sample_env None) "mail" initial_state).
  vm_compute. reflexivity.
Defined.

(** ** [parse_header]: the keys of a record *)

(** X6: the record of a file holds exactly the lower-cased header names
    and the five reserved keys; [body] is bound to the payload and
    [username], [password], [ip] to the three artifacts of the payload,
    whatever the headers are; [source-email-file] is bound to the
    lower-cased base name of the path unless a header has that name; and
    a message without headers gives the five reserved keys only. *)
Theorem record_keys (f : file) (st : state) :
  ∃ rec st',
    parse_header f st = (Ret rec, st') ∧
    dom rec = list_to_set (header_names f) ∪ list_to_set user_defined_fields ∧
    rec !! "body" = Some (PStr (msg_payload (file_message f))) ∧
    rec !! "username"
      = Some (PStr (pull_artifacts (msg_payload (file_message f))).1.1) ∧
    rec !! "password"
      = Some (PStr (pull_artifacts (msg_payload (file_message f))).1.2) ∧
    rec !! "ip"
      = Some (PStr (pull_artifacts (msg_payload (file_message f))).2) ∧
    ("source-email-file" ∉ header_names f →
       rec !! "source-email-file"
       = Some (PStr (Str.basename (Str.lower (file_name f))))) ∧
    (msg_headers (file_message f) = [] →
       dom rec = list_to_set user_defined_fields).
Proof.
  rewrite parse_header_run. eexists _, _. split; [reflexivity|].
  split_and!.
  - apply record_of_dom.
  - by rewrite (record_of_derived f "body") by (unfold derived_fields; set_solver).
  - by rewrite (record_of_derived f "username")
      by (unfold derived_fields; set_solver).
  - by rewrite (record_of_derived f "password")
      by (unfold derived_fields; set_solver).
  - by rewrite (record_of_derived f "ip") by (unfold derived_fields; set_solver).
  - intros Hno. by rewrite record_of_file_name.
  - intros Hnil. rewrite record_of_dom. unfold header_names, Message.keys.
    rewrite Hnil. simpl. set_solver.
Qed.

Lemma record_keys_witness :
  ∃ rec st',
    parse_header (sample_file "In/Box/Msg.EML" [] "hello") initial_state
      = (Ret rec, st') ∧
    dom rec = list_to_set user_defined_fields ∧
    rec !! "source-email-file" = Some (PStr "msg.eml").
Proof.
  destruct (record_keys (sample_file "In/Box/Msg.EML" [] "hello") initial_state)
    as (rec & st' & Hrun & _ & _ & _ & _ & _ & Hname & Hnil).
  exists rec, st'. split; [exact Hrun|]. split.
  - apply Hnil. reflexivity.
  - rewrite Hname; [vm_compute; reflexivity|].
    vm_compute. apply not_elem_of_nil.
Defined.

(** ** The name of the source file *)

Fixpoint no_slash (s : string) : bool :=
  match s with
  | "" => true
  | String c s' => negb (Ascii.eqb c "/") && no_slash s'
  end.

Section FileName.

Lemma basename_go_no_slash s : ∀ cur,
  no_slash s = true → Str.basename_go cur s = cur.
Proof.
  induction s as [|c s IH]; intros cur; simpl; [done|].
  intros [Hc Hs]%andb_true_iff. destruct (Ascii.eqb c "/"); [done|].
  by apply IH.
Qed.

Lemma basename_go_after_slash a b : ∀ cur,
  no_slash b = true → Str.basename_go cur (a +:+ String "/" b) = b.
Proof.
  induction a as [|c a IH]; intros cur Hb.
  - rewrite str_app_nil_l. simpl. by apply basename_go_no_slash.
  - rewrite str_app_cons. simpl. destruct (Ascii.eqb c "/"); by apply IH.
Qed.

Lemma lower_app s t : Str.lower (s +:+ t) = Str.lower s +:+ Str.lower t.
Proof.
  induction s as [|c s IH]; [done|]. rewrite str_app_cons. simpl.
  by rewrite IH.
Qed.

Lemma lower_slash c : Ascii.eqb (Chars.lower c) "/" = Ascii.eqb c "/".
Proof. by destruct c as [[] [] [] [] [] [] [] []]. Qed.

Lemma no_slash_lower s : no_slash (Str.lower s) = no_slash s.
Proof. induction s as [|c s IH]; simpl; [done|]. by rewrite lower_slash, IH. Qed.

Lemma starts_with_slash_no_slash s :
  no_slash s = true → Os.starts_with_slash s = false.
Proof.
  destruct s as [|c s]; [done|]. simpl.
  intros [Hc _]%andb_true_iff.
  destruct (Ascii.eqb_spec c "/") as [->|Hne]; [done|].
  destruct c as [[] [] [] [] [] [] [] []]; done.
Qed.

(** The base name of a lower-cased path made of a directory and a name
    without slash is the lower-cased name. *)
Lemma basename_of_entry_path dir name :
  no_slash name = true →
  Str.basename (Str.lower (Os.path_join dir name)) = Str.lower name.
Proof.
  intros Hname. unfold Os.path_join, Str.basename.
  rewrite (starts_with_slash_no_slash _ Hname).
  assert (no_slash (Str.lower name) = true) as Hl
    by (by rewrite no_slash_lower).
  destruct (Str.is_empty dir) eqn:Hempty; simpl.
  { destruct dir; [|done]. rewrite str_app_nil_l.
    by apply basename_go_no_slash. }
  destruct (Str.ends_with "/" dir) eqn:Hslash.
  - apply ends_with_spec in Hslash as [stem ->].
    rewrite str_app_assoc, lower_app.
    change ("/" +:+ name) with (String "/" name). simpl Str.lower.
    change (Chars.lower "/") with "/"%char.
    by apply basename_go_after_slash.
  - rewrite lower_app. change ("/" +:+ name) with (String "/" name).
    simpl Str.lower. change (Chars.lower "/") with "/"%char.
    by apply basename_go_after_slash.
Qed.

End FileName.

(** X7: for a directory entry whose name holds no slash, the record that
    [load_data] builds names its source by the lower-cased entry name,
    whatever the directory path is and whether or not it ends in a slash,
    unless the message itself has a header named [source-email-file]. *)
Theorem source_file_is_entry_name (dir : string) (entry : dir_entry)
    (st : state) :
  no_slash (entry_name entry) = true →
  "source-email-file" ∉ header_names (Os.open_r dir entry) →
  ∃ rec st',
    parse_header (Os.open_r dir entry) st = (Ret rec, st') ∧
    rec !! "source-email-file" = Some (PStr (Str.lower (entry_name entry))).
Proof.
  intros Hname Hno. rewrite parse_header_run. eexists _, _.
  split; [reflexivity|].
  rewrite record_of_file_name by done. unfold derived_value.
  repeat (rewrite decide_False by done).
  f_equal. f_equal. by apply basename_of_entry_path.
Qed.

Lemma source_file_is_entry_name_witness :
  ∃ rec st',
    parse_header
      (Os.open_r "Mail/Inbox/" (sample_entry "Offer.EML" [("To", "a@b")]))
      initial_state = (Ret rec, st') ∧
    rec !! "source-email-file" = Some (PStr "offer.eml").
Proof.
  destruct (source_file_is_entry_name "Mail/Inbox/"
              (sample_entry "Offer.EML" [("To", "a@b")]) initial_state)
    as (rec & st' & Hrun & Hrec).
  - vm_compute. reflexivity.
  - apply (bool_decide_unpack _). vm_compute. exact I.
  - exists rec, st'. split; [exact Hrun|]. rewrite Hrec.
    vm_compute. reflexivity.
Defined.
(** ** The case of header names *)

(** The headers of a message with their names in lower case. *)
Definition folded (hs : list (string * string)) : list (string * string) :=
  (fun kv => (Str.lower kv.1, kv.2)) <$> hs.

Section Folding.

Lemma occurrences_folded x hs : occurrences x (folded hs) = occurrences x hs.
Proof.
  unfold occurrences, folded. induction hs as [|[k v] hs IH]; [done|].
  rewrite fmap_cons, !filter_cons. simpl fst.
  rewrite str_lower_idemp. case_decide; rewrite ?fmap_cons; simpl; by rewrite IH.
Qed.

Lemma header_names_folded f :
  header_names f = (folded (msg_headers (file_message f))).*1.
Proof.
  unfold header_names, Message.keys, folded.
  induction (msg_headers (file_message f)) as [|[k v] hs IH]; [done|].
  rewrite !fmap_cons. simpl. by rewrite <-IH.
Qed.

Lemma header_value_folded f f' x :
  folded (msg_headers (file_message f)) = folded (msg_headers (file_message f')) →
  header_value f x = header_value f' x.
Proof.
  intros Hfold. unfold header_value.
  assert (header_names f = header_names f') as ->
    by (by rewrite !header_names_folded, Hfold).
  unfold Message.get, Message.get_all.
  rewrite !first_value_occurrences, !all_values_occurrences.
  rewrite <-(occurrences_folded _ (msg_headers (file_message f))).
  rewrite <-(occurrences_folded _ (msg_headers (file_message f'))).
  by rewrite Hfold.
Qed.

Lemma record_of_folded f f' :
  file_name f = file_name f' →
  msg_payload (file_message f) = msg_payload (file_message f') →
  folded (msg_headers (file_message f)) = folded (msg_headers (file_message f')) →
  record_of f = record_of f'.
Proof.
  intros Hname Hpayload Hfold. unfold record_of, Message.get_payload.
  rewrite Hpayload, Hname. do 4 f_equal.
  apply map_eq. intros x. rewrite !header_loop_at.
  assert (header_names f = header_names f') as ->
    by (by rewrite !header_names_folded, Hfold).
  by rewrite (header_value_folded f f' x Hfold).
Qed.

End Folding.

(** X8: the letter case of header names does not reach the output: two
    files with the same path and payload whose headers agree once their
    names are put in lower case give the same record and the same schema
    set, so [Subject] and [subject] fill one column. *)
Theorem header_name_case_ignored (f f' : file) (st : state) :
  file_name f = file_name f' →
  msg_payload (file_message f) = msg_payload (file_message f') →
  folded (msg_headers (file_message f)) = folded (msg_headers (file_message f')) →
  parse_header f st = parse_header f' st.
Proof.
  intros Hname Hpayload Hfold. rewrite !parse_header_run.
  rewrite (record_of_folded f f') by done.
  by rewrite !header_names_folded, Hfold.
Qed.

Lemma header_name_case_ignored_witness :
  parse_header (sample_file "a.eml" [("Subject", "hi"); ("TO", "x")] "text")
    initial_state
  = parse_header (sample_file "a.eml" [("SUBJECT", "hi"); ("to", "x")] "text")
      initial_state.
Proof.
  apply header_name_case_ignored; reflexivity.
Defined.

(** X9: header names enter the program in lower case and stay so: when
    the schema set holds lower-case names before [load_data], it does so
    afterwards, and every key of every record is in lower case; the
    table therefore has no column that differs from another one by case
    only. *)
Theorem names_stay_lower_case (e : env) (dir : string) (st st' : state)
    (data : list record) :
  load_data e dir st = (Ret data, st') →
  (∀ x, x ∈ email_header_fields st → Str.lower x = x) →
  (∀ x, x ∈ email_header_fields st' → Str.lower x = x) ∧
  Forall (fun rec : record => ∀ x, x ∈ dom rec → Str.lower x = x) data ∧
  (∀ x, x ∈ csv_columns_of (email_header_fields st') → Str.lower x = x).
Proof.
  intros Hload Hst.
  destruct (load_data_inv _ _ _ _ _ Hload) as [entries Hdir].
  destruct (load_data_on_directory e dir entries st Hdir)
    as (st1 & Hrun & _ & Hf & _).
  rewrite Hrun in Hload. injection Hload as <- <-.
  assert (∀ x, x ∈ list_to_set user_defined_fields (C := gset string) →
               Str.lower x = x) as Hres.
  { intros x. rewrite elem_of_list_to_set. unfold user_defined_fields.
    rewrite !elem_of_cons, elem_of_nil.
    intros [->|[->|[->|[->|[->|[]]]]]]; reflexivity. }
  assert (∀ x, x ∈ email_header_fields st1 → Str.lower x = x) as Hfields.
  { intros x. rewrite Hf, elem_of_union. intros [Hx|Hx]; [by apply Hst|].
    unfold names_of in Hx. apply elem_of_union_list in Hx as (X & HX & Hx).
    apply list_elem_of_fmap in HX as (entry & -> & _).
    apply elem_of_list_to_set in Hx. by eapply lower_of_header_name. }
  split_and!.
  - exact Hfields.
  - unfold records_of. apply Forall_fmap, Forall_forall. intros entry _ x.
    simpl. rewrite record_of_dom, elem_of_union. intros [Hx|Hx].
    + apply elem_of_list_to_set in Hx. by eapply lower_of_header_name.
    + by apply Hres.
  - intros x Hx.
    assert (x ∈ (list_to_set (csv_columns_of (email_header_fields st1))
                 : gset string)) as Hx' by (by apply elem_of_list_to_set).
    rewrite csv_columns_set, elem_of_union in Hx'.
    destruct Hx' as [Hx'|Hx']; [by apply Hfields|by apply Hres].
Qed.

Lemma names_stay_lower_case_witness :
  Forall (fun x => Str.lower x = x)
    (csv_columns_of
       (email_header_fields
          (load_data (sample_env None) "mail" initial_state).2)).
Proof.
  apply Forall_forall.
  apply (names_stay_lower_case (sample_env None) "mail" initial_state
           (load_data (sample_env None) "mail" initial_state).2
           (records_of "mail" two_file_directory)).
  - vm_compute. reflexivity.
  - intros x Hx. vm_compute in Hx. discriminate Hx.
Defined.
(** ** [write_data_to_file]: the table and the other files *)

(** A computation that leaves the table stored under [p] as it is. *)
Definition keeps {A} (p : string) (c : M A) : Prop :=
  ∀ st, disk (c st).2 !! p = disk st !! p.

Section Frame.

Lemma keeps_ret {A} p (a : A) : keeps p (mret a : M A).
Proof. by intros st. Qed.

Lemma keeps_raise {A} p err : keeps p (raise err : M A).
Proof. by intros st. Qed.

Lemma keeps_bind {A B} p (c : M A) (f : A → M B) :
  keeps p c → (∀ a, keeps p (f a)) → keeps p (c ≫= f).
Proof.
  intros Hc Hf st. rewrite bind_run. specialize (Hc st).
  destruct (c st) as [[a|err] st1]; simpl in *; [|done].
  by rewrite Hf.
Qed.

Lemma keeps_try {A} p (c h : M A) err :
  keeps p c → keeps p h → keeps p (try_except c err h).
Proof.
  intros Hc Hh st. unfold try_except. specialize (Hc st).
  destruct (c st) as [[a|err'] st1]; simpl in *; [done|].
  case_decide; [|done]. by rewrite Hh.
Qed.

Lemma keeps_print p line : keeps p (print line).
Proof. by intros st. Qed.

Lemma keeps_io_op p e : keeps p (Os.io_op e).
Proof. intros st. unfold Os.io_op. by case_decide. Qed.

Lemma keeps_write_row p e out r : p ≠ out → keeps p (Os.write_row e out r).
Proof.
  intros Hne. apply keeps_bind; [apply keeps_io_op|].
  intros _ st. simpl. by rewrite lookup_insert_ne.
Qed.

Lemma keeps_open_w p e out : p ≠ out → keeps p (Os.open_w e out).
Proof.
  intros Hne. apply keeps_bind; [apply keeps_io_op|].
  intros _ st. simpl. by rewrite lookup_insert_ne.
Qed.

Lemma keeps_writerow p e out cols rec :
  p ≠ out → keeps p (Csv.writerow e out cols rec).
Proof.
  intros Hne. unfold Csv.writerow.
  destruct (Csv.dict_to_list cols rec); [by apply keeps_write_row|].
  apply keeps_raise.
Qed.

Lemma keeps_write_rows p e out cols data :
  p ≠ out → keeps p (write_rows e out cols data).
Proof.
  intros Hne. induction data as [|rec data IH]; simpl; [apply keeps_ret|].
  apply keeps_bind; [by apply keeps_writerow|]. by intros _.
Qed.

Lemma keeps_write_data_to_file p e data out :
  p ≠ out → keeps p (write_data_to_file e data out).
Proof.
  intros Hne. unfold write_data_to_file.
  apply keeps_bind; [by intros st|]. intros fields.
  apply keeps_try.
  - apply keeps_bind; [by apply keeps_open_w|]. intros _.
    apply keeps_bind; [by apply keeps_writerow|]. intros _.
    apply keeps_bind; [by apply keeps_write_rows|]. intros _.
    apply keeps_bind; [apply keeps_io_op|]. intros _. apply keeps_ret.
  - apply keeps_bind; [apply keeps_print|]. intros _. apply keeps_ret.
Qed.

Lemma rows_of_cell cols data i rec j key :
  data !! i = Some rec → cols !! j = Some key →
  ∃ r, rows_of cols data !! i = Some r ∧
       r !! j = Some (default (PStr "") (rec !! key)).
Proof.
  intros Hi Hj. unfold rows_of. rewrite list_lookup_fmap, Hi. simpl.
  eexists; split; [done|]. by rewrite list_lookup_fmap, Hj.
Qed.

End Frame.

(** X10: [write_data_to_file] changes no file other than the output
    file, whether or not an output operation fails; and when the records
    fit the columns and no output operation fails, it returns [True],
    prints nothing, and replaces whatever was stored under the output
    name by the header row followed by one row per record, in order; a
    row has one cell per column, holding the record's value under that
    column or the empty string when the record lacks it. *)
Theorem written_table (e : env) (data : list record) (out : string)
    (st : state) :
  let cols := csv_columns_of (email_header_fields st) in
  (∀ p, p ≠ out →
     disk (write_data_to_file e data out st).2 !! p = disk st !! p) ∧
  (Forall (fun rec : record => dom rec ⊆ list_to_set cols) data →
   ¬ io_fails_in e (io_clock st) (length data + 3) →
   ∃ st' rows,
     write_data_to_file e data out st = (Ret true, st') ∧
     stdout st' = stdout st ∧
     disk st' !! out = Some ((PStr <$> cols) :: rows) ∧
     length rows = length data ∧
     Forall (fun r : row => length r = length cols) rows ∧
     (∀ i rec j key, data !! i = Some rec → cols !! j = Some key →
        ∃ r, rows !! i = Some r ∧
             r !! j = Some (default (PStr "") (rec !! key)))).
Proof.
  intros cols. split.
  { intros p Hne. by apply keeps_write_data_to_file. }
  intros Hfit Hio.
  destruct (write_data_to_file_ok e data out st Hfit Hio)
    as (st' & Hrun & [Hout _] & Hd).
  exists st', (rows_of cols data). split_and!; try done.
  - unfold rows_of. by rewrite length_fmap.
  - unfold rows_of. apply Forall_fmap, Forall_forall. intros rec _. simpl.
    by rewrite length_fmap.
  - intros i rec j key. apply rows_of_cell.
Qed.

Lemma written_table_witness :
  let st := Os.set_table "old.csv" [[PStr "kept"]]
              (Os.set_table "out.csv" [[PStr "stale"]]
                 (with_fields {["subject"]} initial_state)) in
  let data : list record :=
    [{["subject" := PStr "hi"]}; {["body" := PStr "text"]}] in
  (∃ st' rows,
     write_data_to_file (sample_env None) data "out.csv" st = (Ret true, st') ∧
     disk st' !! "out.csv"
     = Some ((PStr <$> ["subject"; "body"; "username"; "password"; "ip";
                        "source-email-file"]) :: rows) ∧
     length rows = 2) ∧
  disk (write_data_to_file (sample_env (Some 2)) data "out.csv" st).2
    !! "old.csv" = Some [[PStr "kept"]].
Proof.
  intros st data. split.
  - destruct (proj2 (written_table (sample_env None) data "out.csv" st))
      as (st' & rows & Hrun & _ & Hd & Hlen & _ & _).
    + apply (bool_decide_unpack _). vm_compute. exact I.
    + intros (k & Hk & _). discriminate Hk.
    + exists st', rows. split_and!; [exact Hrun| |exact Hlen].
      rewrite Hd. vm_compute. reflexivity.
  - rewrite (proj1 (written_table (sample_env (Some 2)) data "out.csv" st))
      by discriminate.
    vm_compute. reflexivity.
Defined.

(** ** [pull_artifacts]: the shape of the results *)

Fixpoint all_chars (p : ascii → bool) (s : string) : bool :=
  match s with
  | "" => true
  | String c s' => p c && all_chars p s'
  end.

(** Whether the character [c] occurs in [s]. *)
Fixpoint occurs (c : ascii) (s : string) : bool :=
  match s with
  | "" => false
  | String a s' => Ascii.eqb a c || occurs c s'
  end.

(** A cell value that is trimmed and lies on one line. *)
Definition one_trimmed_line (s : string) : Prop :=
  Str.strip s = s ∧ occurs Chars.newline s = false.

Section Clean.
Import Keyword.

Lemma all_chars_take_while p s : all_chars p (Str.take_while p s) = true.
Proof.
  induction s as [|c s IH]; simpl; [done|].
  destruct (p c) eqn:Hc; simpl; [|done]. by rewrite Hc.
Qed.

Lemma all_chars_drop_while p q s :
  all_chars p s = true → all_chars p (Str.drop_while q s) = true.
Proof.
  induction s as [|c s IH]; simpl; [done|].
  intros [Hc Hs]%andb_true_iff. destruct (q c); [by apply IH|].
  simpl. by rewrite Hc, Hs.
Qed.

Lemma all_chars_rstrip p s :
  all_chars p s = true → all_chars p (Str.rstrip s) = true.
Proof.
  induction s as [|c s IH]; simpl; [done|].
  intros [Hc Hs]%andb_true_iff.
  destruct (Chars.is_space c && Str.is_empty (Str.rstrip s)); [done|].
  simpl. by rewrite Hc, IH.
Qed.

Lemma all_chars_strip p s :
  all_chars p s = true → all_chars p (Str.strip s) = true.
Proof.
  intros H. unfold Str.strip, Str.lstrip.
  by apply all_chars_rstrip, all_chars_drop_while.
Qed.

Lemma rstrip_idemp s : Str.rstrip (Str.rstrip s) = Str.rstrip s.
Proof.
  induction s as [|c s IH]; simpl; [done|].
  destruct (Chars.is_space c && Str.is_empty (Str.rstrip s)) eqn:E; [done|].
  simpl. by rewrite IH, E.
Qed.

Definition starts_clean (s : string) : bool :=
  match s with
  | "" => true
  | String c _ => negb (Chars.is_space c)
  end.

Lemma lstrip_starts_clean s : starts_clean (Str.lstrip s) = true.
Proof.
  unfold Str.lstrip. induction s as [|c s IH]; simpl; [done|].
  destruct (Chars.is_space c) eqn:Hc; [done|]. simpl. by rewrite Hc.
Qed.

Lemma lstrip_of_clean s : starts_clean s = true → Str.lstrip s = s.
Proof.
  destruct s as [|c s]; [done|]. simpl. unfold Str.lstrip. simpl.
  by destruct (Chars.is_space c).
Qed.

Lemma rstrip_starts_clean s :
  starts_clean s = true → starts_clean (Str.rstrip s) = true.
Proof.
  destruct s as [|c s]; [done|]. simpl.
  destruct (Chars.is_space c) eqn:Hc; [done|]. simpl. by rewrite Hc.
Qed.

Lemma strip_idemp s : Str.strip (Str.strip s) = Str.strip s.
Proof.
  unfold Str.strip.
  rewrite (lstrip_of_clean (Str.rstrip (Str.lstrip s))).
  - apply rstrip_idemp.
  - apply rstrip_starts_clean, lstrip_starts_clean.
Qed.

Lemma occurs_all_chars c s :
  all_chars (fun a => negb (Ascii.eqb a c)) s = true → occurs c s = false.
Proof.
  induction s as [|a s IH]; simpl; [done|].
  intros [Ha Hs]%andb_true_iff. rewrite IH by done.
  by destruct (Ascii.eqb a c).
Qed.

Lemma strip_line_clean rest : one_trimmed_line (Str.strip (line rest)).
Proof.
  split; [apply strip_idemp|].
  apply occurs_all_chars, all_chars_strip. unfold line.
  apply (all_chars_take_while not_newline).
Qed.

Lemma placeholder_clean : one_trimmed_line placeholder.
Proof. split; reflexivity. Qed.

End Clean.

(** X12: whatever the body is, the username and the password artifacts
    are trimmed and hold no line break (trimming them again changes
    nothing), and the IP artifact is either the placeholder or a dotted
    quad. *)
Theorem artifacts_on_one_line (body : string) :
  one_trimmed_line (pull_artifacts body).1.1 ∧
  one_trimmed_line (pull_artifacts body).1.2 ∧
  ((pull_artifacts body).2 = "*" ∨ dotted_quad (pull_artifacts body).2).
Proof.
  rewrite username_first_label, password_first_label, ip_first_quad.
  split_and!.
  - destruct (first_match _ body);
      [apply strip_line_clean|apply placeholder_clean].
  - destruct (first_match _ body);
      [apply strip_line_clean|apply placeholder_clean].
  - destruct (first_match Quad.quad_here body) as [t|] eqn:E; [|by left].
    apply first_match_some in E as (pre & s & _ & Hs).
    apply quad_here_sound in Hs as [Hq _]. right.
    by rewrite (strip_no_space _ (dotted_quad_no_space _ Hq)).
Qed.

Section Marks.
Import Keyword.

Lemma occurs_app c s t : occurs c (s +:+ t) = occurs c s || occurs c t.
Proof.
  induction s as [|a s IH]; [done|]. rewrite str_app_cons. simpl.
  by rewrite IH, orb_assoc.
Qed.

Lemma labelled_has_colon keywords s rest :
  labelled keywords s rest → occurs ":" s = true.
Proof.
  intros (w & _ & w' & n & _ & ->).
  rewrite !occurs_app. change (occurs ":" ":") with true.
  by rewrite !orb_true_r.
Qed.

Lemma dotted_quad_has_period t : dotted_quad t → occurs "." t = true.
Proof.
  intros (a & b & c & d & _ & _ & _ & _ & ->).
  rewrite !occurs_app. change (occurs "." ".") with true.
  by rewrite !orb_true_r.
Qed.

Lemma dotted_quad_has_digit t :
  dotted_quad t → all_chars (fun c => negb (Chars.is_digit c)) t = false.
Proof.
  intros (a & b & c & d & [Ha Hlen] & _ & _ & _ & ->).
  destruct a as [|x a]; simpl in Hlen; [lia|].
  apply andb_true_iff in Ha as [Hx _]. rewrite str_app_cons. simpl.
  by rewrite Hx.
Qed.

Lemma all_chars_app p s t :
  all_chars p (s +:+ t) = all_chars p s && all_chars p t.
Proof.
  induction s as [|a s IH]; [done|]. rewrite str_app_cons. simpl.
  by rewrite IH, andb_assoc.
Qed.

End Marks.

(** X13: a body without a colon gives the placeholder for the username
    and for the password, and a body without a period, or without a
    digit, gives the placeholder for the IP address; in particular the
    empty body gives three placeholders. *)
Theorem placeholders_without_marks (body : string) :
  (occurs ":" body = false →
     (pull_artifacts body).1.1 = "*" ∧ (pull_artifacts body).1.2 = "*") ∧
  (occurs "." body = false → (pull_artifacts body).2 = "*") ∧
  (all_chars (fun c => negb (Chars.is_digit c)) body = true →
     (pull_artifacts body).2 = "*").
Proof.
  rewrite username_first_label, password_first_label, ip_first_quad.
  split_and!.
  - intros Hno.
    assert (∀ keywords pre s rest,
              body = pre +:+ s → ¬ labelled keywords s rest) as Hnone.
    { intros keywords pre s rest -> Hl%labelled_has_colon.
      rewrite occurs_app, Hl, orb_true_r in Hno. done. }
    by rewrite !no_label_found by apply Hnone.
  - intros Hno.
    destruct (first_match Quad.quad_here body) as [t|] eqn:E; [|done].
    apply first_match_some in E as (pre & s & -> & Hs).
    apply quad_here_sound in Hs as [Hq%dotted_quad_has_period [post ->]].
    rewrite !occurs_app, Hq, orb_true_r in Hno. simpl in Hno. done.
  - intros Hno.
    destruct (first_match Quad.quad_here body) as [t|] eqn:E; [|done].
    apply first_match_some in E as (pre & s & -> & Hs).
    apply quad_here_sound in Hs as [Hq%dotted_quad_has_digit [post ->]].
    rewrite !all_chars_app, Hq, andb_false_r in Hno. simpl in Hno. done.
Qed.

Lemma placeholders_without_marks_witness :
  pull_artifacts "" = ("*", "*", "*") ∧
  (pull_artifacts "Username alice, at 10-0-0-1").2 = "*".
Proof.
  destruct (placeholders_without_marks "") as (Hcolon & Hperiod & _).
  destruct (Hcolon eq_refl) as [Hu Hp]. specialize (Hperiod eq_refl).
  split.
  - rewrite (surjective_pairing (pull_artifacts "")).
    rewrite (surjective_pairing (pull_artifacts "").1).
    by rewrite Hu, Hp, Hperiod.
  - apply (proj1 (proj2 (placeholders_without_marks _))).
    vm_compute. reflexivity.
Defined.
